(** * Coffee wheel: the weighted wheel of [src/App.tsx]

    The React component [App] keeps five pieces of state ([names],
    [newName], [isSpinning], [winner], [rotation]) and changes them through
    a handful of handlers.  This development embeds the handlers as functions
    on an explicit state record, and the user interface as a step function
    over the events the rendered page can deliver (a disabled control delivers
    none).

    JavaScript numbers are kept abstract: the program is written once over an
    interface [Number] holding the literals and operators the source uses.
    The arithmetic of the engine is the instance [float], IEEE 754 binary64;
    the properties of weights, angles and rotations are proved there, from
    the specification of the primitive operations.  The instance [Q] of
    exact rationals is used only for properties of win counts, on which the
    two agree. *)

From Stdlib Require Import ZArith QArith Qround Qabs Qminmax.
From Stdlib Require Import List String Ascii Bool Lia Lqa.
From Stdlib Require Import PrimFloat FloatOps SpecFloat FloatAxioms DecimalString.
Import ListNotations.

Set Implicit Arguments.

(** ** Numbers *)

Declare Scope num_scope.
Delimit Scope num_scope with num.

(** The numeric literals and operators occurring in [App.tsx]. *)
Class Number (num : Type) : Type := {
  lit : Z -> num;               (* an integer literal: 0, 1, 5, 360 *)
  dec : Z -> positive -> num;   (* [dec m d]: the decimal literal m/d, d a power of ten *)
  add : num -> num -> num;      (* a + b *)
  sub : num -> num -> num;      (* a - b *)
  mul : num -> num -> num;      (* a * b *)
  div : num -> num -> num;      (* a / b *)
  rem : num -> num -> num;      (* a % b, the sign follows the dividend *)
  max : num -> num -> num;      (* Math.max(a, b) *)
  geb : num -> num -> bool;     (* a >= b *)
  ltb : num -> num -> bool;     (* a < b *)
  seqb : num -> num -> bool     (* a === b *)
}.

Infix "+" := add : num_scope.
Infix "-" := sub : num_scope.
Infix "*" := mul : num_scope.
Infix "/" := div : num_scope.
Infix "mod" := rem (at level 40, no associativity) : num_scope.
Infix ">=?" := geb (at level 70, no associativity) : num_scope.
Infix "<?" := ltb (at level 70, no associativity) : num_scope.
Infix "===" := seqb (at level 70, no associativity) : num_scope.

(** *** Exact rationals *)

(** The integer part of a rational, rounding towards zero. *)
Definition Qtrunc (q : Q) : Z :=
  if Qle_bool 0 q then Qfloor q else Qceiling q.

(** [n % d] as ECMAScript defines it for finite operands: [n - d * q] with
    [q] the quotient [n / d] truncated towards zero. *)
Definition Qrem (n d : Q) : Q := (n - d * inject_Z (Qtrunc (n / d)))%Q.

Definition Qmax_js (a b : Q) : Q := if Qle_bool a b then b else a.

#[export] Instance Q_Number : Number Q := {|
  lit := inject_Z;
  dec := fun m d => Qmake m d;
  add := Qplus;
  sub := Qminus;
  mul := Qmult;
  div := Qdiv;
  rem := Qrem;
  max := Qmax_js;
  geb := fun a b => Qle_bool b a;
  ltb := fun a b => negb (Qle_bool b a);
  seqb := Qeq_bool
|}.

(** *** IEEE 754 binary64 *)

(** An integer as the nearest double (every literal of the program is exact). *)
Definition float_of_Z (z : Z) : float :=
  SF2Prim (binary_normalize prec emax z 0 false).

(** [n % d] on doubles.  The remainder of two finite doubles is itself a
    double, so it is computed exactly on the integer mantissas, brought to a
    common exponent. *)
Definition float_rem (n d : float) : float :=
  match Prim2SF n, Prim2SF d with
  | S754_nan, _ | _, S754_nan => PrimFloat.nan
  | S754_infinity _, _ => PrimFloat.nan
  | _, S754_zero _ => PrimFloat.nan
  | _, S754_infinity _ => n
  | S754_zero _, _ => n
  | S754_finite sn mn en, S754_finite _ md ed =>
      let e := Z.min en ed in
      let N := Z.shiftl (Zpos mn) (en - e) in
      let D := Z.shiftl (Zpos md) (ed - e) in
      let r := Z.rem N D in
      SF2Prim (binary_normalize prec emax (if sn then Z.opp r else r) e sn)
  end.

(** [Math.max] on two doubles: NaN is contagious and [+0] is larger than
    [-0]. *)
Definition float_max (a b : float) : float :=
  if PrimFloat.is_nan a || PrimFloat.is_nan b then PrimFloat.nan
  else if PrimFloat.ltb a b then b
  else if PrimFloat.ltb b a then a
  else if PrimFloat.get_sign a then b else a.

#[export] Instance float_Number : Number float := {|
  lit := float_of_Z;
  dec := fun m d => PrimFloat.div (float_of_Z m) (float_of_Z (Zpos d));
  add := PrimFloat.add;
  sub := PrimFloat.sub;
  mul := PrimFloat.mul;
  div := PrimFloat.div;
  rem := float_rem;
  max := float_max;
  geb := fun a b => PrimFloat.leb b a;
  ltb := PrimFloat.ltb;
  seqb := PrimFloat.eqb
|}.

(** ** Strings *)

(** Names are modelled as strings of code units below 256 (the Latin-1
    range); on such strings [trim] and [toLowerCase] below agree with the
    JavaScript methods: the white space of that range is U+0009 to U+000D,
    U+0020 and U+00A0, and its upper-case letters are A to Z, U+00C0 to
    U+00D6 and U+00D8 to U+00DE, each 32 below its lower-case letter. *)

Definition is_space (c : ascii) : bool :=
  let n := nat_of_ascii c in
  (n =? 32)%nat || (n =? 160)%nat || ((9 <=? n)%nat && (n <=? 13)%nat).

Fixpoint trimStart (s : string) : string :=
  match s with
  | EmptyString => EmptyString
  | String c rest => if is_space c then trimStart rest else s
  end.

Fixpoint trimEnd (s : string) : string :=
  match s with
  | EmptyString => EmptyString
  | String c rest =>
      match trimEnd rest with
      | EmptyString => if is_space c then EmptyString else String c EmptyString
      | rest' => String c rest'
      end
  end.

Definition trim (s : string) : string := trimEnd (trimStart s).

Definition lower (c : ascii) : ascii :=
  let n := nat_of_ascii c in
  if (((65 <=? n)%nat && (n <=? 90)%nat) ||
      ((192 <=? n)%nat && (n <=? 214)%nat) ||
      ((216 <=? n)%nat && (n <=? 222)%nat))%bool
  then ascii_of_nat (n + 32) else c.

Fixpoint toLowerCase (s : string) : string :=
  match s with
  | EmptyString => EmptyString
  | String c rest => String (lower c) (toLowerCase rest)
  end.

(** A string used as a condition is true when it is not empty. *)
Definition truthy (s : string) : bool :=
  match s with EmptyString => false | _ => true end.

(** ** The component *)

Section Wheel.

Context {num : Type} {ops : Number num}.
Local Open Scope num_scope.

(** *** Data *)

(** [interface Person]. *)
Record Person : Type := {
  id : string;
  name : string;
  wins : num
}.

(** The objects built by [calculateWeightedSegments]: [{...person, weight}].
    The spread copies every field of [person], which the embedding keeps as
    one component. *)
Record WeightedPerson : Type := {
  person : Person;
  weight : num
}.

(** The objects built by [getSegmentAngles]:
    [{...person, startAngle, endAngle, segmentAngle}]. *)
Record Segment : Type := {
  wperson : WeightedPerson;
  startAngle : num;
  endAngle : num;
  segmentAngle : num
}.

Definition segId (s : Segment) : string := id (person (wperson s)).
Definition segName (s : Segment) : string := name (person (wperson s)).

(** The state of [App]: the five [useState] cells, and the callbacks handed
    to [setTimeout] that have not run yet, oldest first.  Each callback is
    represented by the [selectedWinner] it closes over, [None] standing for
    [undefined]. *)
Record AppState : Type := {
  names : list Person;
  newName : string;
  isSpinning : bool;
  winner : option string;
  rotation : num;
  timers : list (option Segment)
}.

(** The state after the first render; [saved] is the roster parsed from
    local storage, if any. *)
Definition initialState (saved : option (list Person)) : AppState :=
  {| names := match saved with Some l => l | None => [] end;
     newName := EmptyString;
     isSpinning := false;
     winner := None;
     rotation := lit 0;
     timers := [] |}.

(** *** Roster handlers *)

(** [addName]; [now] is the value of [Date.now()]. *)
Definition addName (st : AppState) (now : N) : AppState :=
  if truthy (trim (newName st)) &&
     negb (existsb
             (fun person =>
                String.eqb (toLowerCase (name person)) (toLowerCase (newName st)))
             (names st))
  then
    let newPerson :=
      {| id := NilEmpty.string_of_uint (N.to_uint now);
         name := trim (newName st);
         wins := lit 0 |} in
    {| names := names st ++ [newPerson];
       newName := EmptyString;
       isSpinning := isSpinning st;
       winner := winner st;
       rotation := rotation st;
       timers := timers st |}
  else st.

Definition setNames (st : AppState) (f : list Person -> list Person) : AppState :=
  {| names := f (names st);
     newName := newName st;
     isSpinning := isSpinning st;
     winner := winner st;
     rotation := rotation st;
     timers := timers st |}.

(** [removeName]. *)
Definition removeName (st : AppState) (i : string) : AppState :=
  setNames st (filter (fun person => negb (String.eqb (id person) i))).

(** The handler of the [-] button of the row showing [i]. *)
Definition decreaseWins (st : AppState) (i : string) : AppState :=
  setNames st
    (map (fun p =>
            if String.eqb (id p) i
            then {| id := id p; name := name p; wins := max (lit 0) (wins p - lit 1) |}
            else p)).

(** The handler of the reset button. *)
Definition resetWins (st : AppState) : AppState :=
  setNames st (map (fun person =>
                      {| id := id person; name := name person; wins := lit 0 |})).

(** *** Weights and segments *)

(** [calculateWeightedSegments]. *)
Definition calculateWeightedSegments (names : list Person) : list WeightedPerson :=
  let baseWeight := lit 1 in
  let penaltyPerWin := dec 2 10 in
  map (fun person =>
         let weight := max (dec 1 10) (baseWeight - wins person * penaltyPerWin) in
         {| person := person; weight := weight |})
      names.

(** The second [map] of [getSegmentAngles]; its callback reads and advances
    the variable [currentAngle], which is threaded through here. *)
Fixpoint layoutFrom (totalWeight currentAngle : num)
         (weightedPeople : list WeightedPerson) : list Segment :=
  match weightedPeople with
  | [] => []
  | person :: rest =>
      let segmentAngle := (weight person / totalWeight) * lit 360 in
      let startAngle := currentAngle in
      let endAngle := currentAngle + segmentAngle in
      {| wperson := person;
         startAngle := startAngle;
         endAngle := endAngle;
         segmentAngle := segmentAngle |}
      :: layoutFrom totalWeight endAngle rest
  end.

(** [getSegmentAngles]. *)
Definition getSegmentAngles (names : list Person) : list Segment :=
  let weightedPeople := calculateWeightedSegments names in
  let totalWeight :=
    fold_left (fun sum person => sum + weight person) weightedPeople (lit 0) in
  layoutFrom totalWeight (lit 0) weightedPeople.

(** *** Spinning *)

(** The test of the loop of [spinWheel] for one segment. *)
Definition atTop (finalRotation : num) (segment : Segment) : bool :=
  let segmentTopAngle := (lit 360 - finalRotation) mod lit 360 in
  (segmentTopAngle >=? startAngle segment) &&
  (segmentTopAngle <? endAngle segment).

(** The [for ... of] loop of [spinWheel]: [selectedWinner] is overwritten
    by the first segment passing the test, and the loop is left. *)
Fixpoint scanSegments (finalRotation : num) (selectedWinner : option Segment)
         (segments : list Segment) : option Segment :=
  match segments with
  | [] => selectedWinner
  | segment :: rest =>
      if atTop finalRotation segment then Some segment
      else scanSegments finalRotation selectedWinner rest
  end.

Definition totalRotation (random : num) : num :=
  let baseRotation := lit 360 * lit 5 in
  let randomAngle := random * lit 360 in
  baseRotation + randomAngle.

(** The value of [selectedWinner] when the loop of [spinWheel] is over, for
    the roster [names], the rotation [rotation] of the current render and
    [random] the value of [Math.random()]. *)
Definition selectWinner (names : list Person) (rotation random : num)
  : option Segment :=
  let finalRotation := (rotation + totalRotation random) mod lit 360 in
  let segments := getSegmentAngles names in
  let selectedWinner := nth_error segments 0 in
  scanSegments finalRotation selectedWinner segments.

(** [spinWheel], up to and including the call of [setTimeout]. *)
Definition spinWheel (st : AppState) (random : num) : AppState :=
  if (List.length (names st) =? 0)%nat then st
  else
    {| names := names st;
       newName := newName st;
       isSpinning := true;
       winner := None;
       rotation := rotation st + totalRotation random;
       timers := timers st ++ [selectWinner (names st) (rotation st) random] |}.

(** The update of the roster made by the callback of [setTimeout]. *)
Definition incrementWins (selectedWinner : Segment) (prevNames : list Person)
  : list Person :=
  map (fun person =>
         if String.eqb (id person) (segId selectedWinner)
         then {| id := id person; name := name person; wins := wins person + lit 1 |}
         else person)
      prevNames.

(** The callback of [setTimeout], run on the state [st].  With
    [selectedWinner] undefined, reading [selectedWinner.name] throws before
    any cell is written. *)
Definition commit (st : AppState) (selectedWinner : option Segment) : AppState :=
  match selectedWinner with
  | None => st
  | Some w =>
      {| names := incrementWins w (names st);
         newName := newName st;
         isSpinning := false;
         winner := Some (segName w);
         rotation := rotation st;
         timers := timers st |}
  end.

(** *** The page *)

(** What the user and the timer can do. *)
Inductive Event : Type :=
| Change (text : string)      (* edit the name field *)
| PressEnter (now : N)        (* the Enter key in the name field *)
| ClickAdd (now : N)          (* Add Name *)
| ClickRemove (row : nat)     (* the remove button of a row *)
| ClickDecrease (row : nat)   (* the decrease button of a row *)
| ClickReset                  (* Reset All Wins *)
| ClickSpin (random : num)    (* Spin the Wheel; [random] is [Math.random()] *)
| Timeout.                    (* the oldest pending timer expires *)

Definition setNewName (st : AppState) (text : string) : AppState :=
  {| names := names st;
     newName := text;
     isSpinning := isSpinning st;
     winner := winner st;
     rotation := rotation st;
     timers := timers st |}.

Definition dropTimer (st : AppState) : AppState :=
  {| names := names st;
     newName := newName st;
     isSpinning := isSpinning st;
     winner := winner st;
     rotation := rotation st;
     timers := tl (timers st) |}.

(** One event on the rendered page.  Every control carries a [disabled]
    attribute, and a disabled control does not call its handler. *)
Definition step (st : AppState) (ev : Event) : AppState :=
  match ev with
  | Change text =>
      if isSpinning st then st else setNewName st text
  | PressEnter now =>
      if isSpinning st then st else addName st now
  | ClickAdd now =>
      if isSpinning st || negb (truthy (trim (newName st))) then st
      else addName st now
  | ClickRemove row =>
      match nth_error (names st) row with
      | None => st
      | Some person =>
          if isSpinning st then st else removeName st (id person)
      end
  | ClickDecrease row =>
      match nth_error (names st) row with
      | None => st
      | Some person =>
          if isSpinning st || (wins person === lit 0) then st
          else decreaseWins st (id person)
      end
  | ClickReset =>
      if isSpinning st then st else resetWins st
  | ClickSpin random =>
      if (List.length (names st) =? 0)%nat || isSpinning st then st
      else spinWheel st random
  | Timeout =>
      match timers st with
      | [] => st
      | selectedWinner :: _ => commit (dropTimer st) selectedWinner
      end
  end.

(** A run of the page. *)
Definition run (st : AppState) (evs : list Event) : AppState :=
  fold_left step evs st.

End Wheel.

Arguments Person num : clear implicits.
Arguments WeightedPerson num : clear implicits.
Arguments Segment num : clear implicits.
Arguments AppState num : clear implicits.
Arguments Event num : clear implicits.

(** ** Notions used in the statements

    These follow the wording of the specification; the theorems relate them
    to what the component computes. *)


(** The angle of the wheel's own frame that comes to rest under the pointer,
    for a spin from the cumulative rotation [p] with [Math.random()]
    returning [random], evaluated with the operations of the code:
    [(360 - ((p + (360 * 5 + random * 360)) % 360)) % 360]. *)
Definition pointerAngleInWheelFrame {num : Type} {ops : Number num}
           (p random : num) : num :=
  ((lit 360 - ((p + totalRotation random) mod lit 360)) mod lit 360)%num.

(** [angle] lies in the half-open interval of [segment], by the comparisons
    of the code. *)
Definition contains {num : Type} {ops : Number num}
           (segment : Segment num) (angle : num) : bool :=
  ((angle >=? startAngle segment) && (angle <? endAngle segment))%num.

(** [Math.random()] returns a double from 0 up to, not including, 1. *)
Definition validSample (random : float) : Prop :=
  PrimFloat.leb 0 random = true /\ PrimFloat.ltb random 1 = true.

Definition validEvent (ev : Event float) : Prop :=
  match ev with
  | ClickSpin random => validSample random
  | _ => True
  end.

(** ** Concrete rosters *)

Definition entrant {num : Type} {ops : Number num} (i n : string) (w : Z)
  : Person num :=
  {| id := i; name := n; wins := lit w |}.

(** The page showing the roster [l], at rest. *)
Definition idle {num : Type} {ops : Number num} (l : list (Person num))
  : AppState num :=
  initialState (Some l).

Definition twoEntrants {num : Type} {ops : Number num} : list (Person num) :=
  [entrant "1" "A" 0; entrant "2" "B" 0].

(** Seven entrants whose segment sizes, added up in binary64, stop short of
    360. *)
Definition sevenEntrants : list (Person float) :=
  [entrant "1" "Ann" 0; entrant "2" "Bob" 0; entrant "3" "Cem" 4;
   entrant "4" "Dee" 4; entrant "5" "Eli" 4; entrant "6" "Fay" 4;
   entrant "7" "Gus" 5].

(** The double [2^-51]. *)
Definition tinySample : float := 0x1p-51%float.

(** The double [1/2 + 2^-52]. *)
Definition justOverHalf : float := 0x1.0000000000002p-1%float.

(** The largest double below 1. *)
Definition justBelowOne : float := 0x1.fffffffffffffp-1%float.

(** A spin of the two-entrant roster waiting for its timer, the winner being
    the first entrant. *)
Definition segmentA : Segment Q :=
  {| wperson := {| person := entrant "1" "A" 0; weight := 1%Q |};
     startAngle := 0%Q;
     endAngle := 180%Q;
     segmentAngle := 180%Q |}.

Definition awaitingCommit : AppState Q :=
  {| names := twoEntrants;
     newName := EmptyString;
     isSpinning := true;
     winner := None;
     rotation := 2000%Q;
     timers := [Some segmentA] |}.

(** The roster holds Alice, and the name field holds her name after a
    space. *)
Definition paddedDuplicate : AppState Q :=
  setNewName (idle [entrant "1" "Alice" 0]) " Alice".

(** ** Binary64 values

    The properties of the arithmetic are proved from the specification of
    the primitive operations ([SpecFloat]).  A double is measured by an
    integer, its value counted in units of [2^-2148] (every double is a whole
    number of them, and so is every product of two doubles), so that rounding
    and order are statements on [Z]. *)

Section Binary64Values.

Local Open Scope Z_scope.

(** Rounding [m / 2^n] to the nearest integer, ties to even. *)
Definition rne (m n : Z) : Z :=
  let q := m / 2 ^ n in
  let r := m mod 2 ^ n in
  let h := 2 ^ (n - 1) in
  if r <? h then q
  else if h <? r then q + 1
  else if Z.even q then q else q + 1.

(** The exponent of the last place of a number of magnitude [2^t]. *)
Definition fexp64 (t : Z) : Z := Z.max (t - 53) (-1074).

Definition expo (X : Z) : Z := fexp64 (Zdigits2 X - 2148) + 2148.

(** The rounding to binary64 of the non-negative value [X], overflow not
    considered. *)
Definition round64 (X : Z) : Z := rne X (expo X) * 2 ^ expo X.

(** [2^1024], above every finite double. *)
Definition top64 : Z := 2 ^ (1024 + 2148).

(** The magnitude of a number; infinity counts as [2^1024]. *)
Definition mag (f : spec_float) : Z :=
  match f with
  | S754_zero _ => 0
  | S754_finite _ m e => Zpos m * 2 ^ (e + 2148)
  | S754_infinity _ => top64
  | S754_nan => 0
  end.

(** The value of a number, infinities counting as [2^1024] and [-2^1024]. *)
Definition rank (f : spec_float) : Z :=
  match f with
  | S754_finite true _ _ | S754_infinity true => - mag f
  | _ => mag f
  end.

(** [f] is the rounding of the non-negative value [X]. *)
Definition Rounds (f : spec_float) (X : Z) : Prop :=
  match f with
  | S754_zero _ => round64 X = 0
  | S754_finite false M E => Zpos M * 2 ^ (E + 2148) = round64 X
  | S754_infinity false => top64 <= round64 X
  | _ => False
  end.

(** [f] is the rounding of the value [S], of either sign. *)
Definition RoundsZ (f : spec_float) (S : Z) : Prop :=
  if 0 <=? S then Rounds f S else Rounds (SFopp f) (- S).

(** Zero or finite. *)
Definition fz (f : spec_float) : Prop :=
  match f with S754_zero _ | S754_finite _ _ _ => True | _ => False end.

(** Not negative: a zero, a positive finite number or [+infinity]. *)
Definition nn (f : spec_float) : Prop :=
  match f with
  | S754_zero _ | S754_finite false _ _ | S754_infinity false => True
  | _ => False
  end.

(** The value of a double, in units of [2^-2148]. *)
Definition frank (x : float) : Z := rank (Prim2SF x).

Definition notnan (x : float) : Prop := Prim2SF x <> S754_nan.

(** The integer [n] in the same units. *)
Definition units (n : Z) : Z := n * 2 ^ 2148.

End Binary64Values.

(** ** Further notions *)

From Stdlib Require Import DecimalN.

(** [Date.now().toString()]. *)
Definition timestampId (now : N) : string :=
  NilEmpty.string_of_uint (N.to_uint now).

(** The spinning flag and the pending timers agree: an idle page has no
    timer, a spinning page has exactly one, and its winner carries the id of
    a row of the roster. *)
Definition consistent {num : Type} (st : AppState num) : Prop :=
  match timers st with
  | [] => isSpinning st = false
  | [Some w] => isSpinning st = true /\ In (segId w) (map (@id num) (names st))
  | _ => False
  end.

(** A name with at least one character and no white space around it. *)
Definition tidyName (s : string) : Prop :=
  s <> EmptyString /\ trim s = s.

(** No entrant has a negative number of wins. *)
Definition nonNegativeWins (l : list (Person Q)) : Prop :=
  Forall (fun p => (0 <= wins p)%Q) l.


(** No two entrants have names that differ by letter case only. *)
Definition distinctNames {num : Type} (l : list (Person num)) : Prop :=
  NoDup (map (fun p => toLowerCase (name p)) l).

(** The roster of three with one, three and seven wins. *)
Definition threeEntrants : list (Person Q) :=
  [entrant "1" "Ann" 1; entrant "2" "Bob" 3; entrant "3" "Cem" 7].

(** The page showing [l] with [text] typed in the name field. *)
Definition typing {num : Type} {ops : Number num} (l : list (Person num))
           (text : string) : AppState num :=
  setNewName (idle l) text.



(** ** Inputs in binary64 *)



(** Two rows stored under one id. *)
Definition sharedId : list (Person float) :=
  [entrant "7" "Ann" 0; entrant "7" "Bob" 0].

(** The angle of the specification for the doubles [p] and [s], the
    cumulative rotation and the random angle, computed without rounding:
    [(360 - ((p + 5 * 360 + s) mod 360)) mod 360], in units of [2^-2148]. *)
Definition exactPointerAngle (p s : float) : Z :=
  let turn := units 360 in
  ((turn - ((frank p + 5 * turn + frank s) mod turn)) mod turn)%Z.

(** The interval of [segment] holds the exact value [angle]. *)
Definition holds (segment : Segment float) (angle : Z) : bool :=
  ((frank (startAngle segment) <=? angle) &&
   (angle <? frank (endAngle segment)))%Z.

(** A segment standing for no segment. *)
Definition noSegment : Segment float :=
  {| wperson := {| person := entrant "" "" 0; weight := 0%float |};
     startAngle := 0%float;
     endAngle := 0%float;
     segmentAngle := 0%float |}.

(** * Binary64 arithmetic *)

Section Binary64.

Local Open Scope Z_scope.
Local Unset Implicit Arguments.

(** ** Rounding to nearest, ties to even, on integers *)

Lemma iter_pos_nat (A : Type) (f : A -> A) (p : positive) (x : A) :
  iter_pos f p x = Nat.iter (Pos.to_nat p) f x.
Proof.
  revert x. induction p as [p IH | p IH |]; intros x; cbn [iter_pos].
  - rewrite !IH, Pos2Nat.inj_xI.
    rewrite <- Nat.iter_succ_r, <- Nat.iter_add.
    f_equal. lia.
  - rewrite !IH, Pos2Nat.inj_xO, <- Nat.iter_add. f_equal. lia.
  - reflexivity.
Qed.

Lemma shr_1_nonneg (m : Z) (r s : bool) :
  0 <= m ->
  shr_1 (Build_shr_record m r s) = Build_shr_record (m / 2) (Z.odd m) (r || s).
Proof.
  intros Hm. rewrite <- Z.div2_div.
  destruct m as [| [p | p |] |]; try reflexivity. lia.
Qed.

Lemma shr_iter (m : Z) (n : nat) :
  0 <= m ->
  Nat.iter (S n) shr_1 (Build_shr_record m false false) =
  Build_shr_record (m / 2 ^ Z.of_nat (S n))
                   (Z.odd (m / 2 ^ Z.of_nat n))
                   (negb (m mod 2 ^ Z.of_nat n =? 0)).
Proof.
  intros Hm. induction n as [| n IH].
  - change (Nat.iter 1 shr_1 (Build_shr_record m false false))
      with (shr_1 (Build_shr_record m false false)).
    rewrite shr_1_nonneg by exact Hm.
    change (Z.of_nat 1) with 1. change (Z.of_nat 0) with 0.
    rewrite Z.pow_1_r, Z.pow_0_r, Z.div_1_r, Z.mod_1_r. reflexivity.
  - change (Nat.iter (S (S n)) shr_1 (Build_shr_record m false false))
      with (shr_1 (Nat.iter (S n) shr_1 (Build_shr_record m false false))).
    rewrite IH.
    assert (Hp : 0 < 2 ^ Z.of_nat n) by (apply Z.pow_pos_nonneg; lia).
    assert (Hq : 0 <= m / 2 ^ Z.of_nat (S n)).
    { apply Z.div_pos; [exact Hm | apply Z.pow_pos_nonneg; lia]. }
    rewrite shr_1_nonneg by exact Hq.
    assert (E1 : Z.of_nat (S (S n)) = Z.of_nat (S n) + 1) by lia.
    assert (E2 : Z.of_nat (S n) = Z.of_nat n + 1) by lia.
    f_equal.
    + rewrite E1, Z.pow_add_r, Z.pow_1_r by lia.
      rewrite Z.div_div by (try apply Z.pow_pos_nonneg; lia). reflexivity.
    + (* sticky bit *)
      rewrite E2, Z.pow_add_r, Z.pow_1_r by lia.
      rewrite Z.rem_mul_r by lia.
      set (a := m / 2 ^ Z.of_nat n). set (b := m mod 2 ^ Z.of_nat n).
      assert (Hb : 0 <= b < 2 ^ Z.of_nat n) by (apply Z.mod_pos_bound; exact Hp).
      assert (Ha : a mod 2 = if Z.odd a then 1 else 0).
      { rewrite Zmod_odd. reflexivity. }
      rewrite Ha. destruct (Z.odd a); simpl.
      * symmetry. apply negb_true_iff. apply Z.eqb_neq. lia.
      * f_equal. f_equal. lia.
Qed.

Lemma shr_rne (m : Z) (p : positive) :
  0 <= m ->
  let mrs := iter_pos shr_1 p (Build_shr_record m false false) in
  shr_m mrs = m / 2 ^ Zpos p /\
  round_nearest_even (shr_m mrs) (loc_of_shr_record mrs) = rne m (Zpos p).
Proof.
  intros Hm mrs. unfold mrs. rewrite iter_pos_nat.
  destruct (Pos2Nat.is_succ p) as [n En]. rewrite En.
  assert (Ep : Zpos p = Z.of_nat (S n)) by lia.
  rewrite shr_iter by exact Hm. rewrite Ep. cbn [shr_m]. split; [reflexivity |].
  unfold rne.
  assert (E2 : Z.of_nat (S n) = Z.of_nat n + 1) by lia.
  assert (E3 : Z.of_nat (S n) - 1 = Z.of_nat n) by lia.
  rewrite E3.
  assert (Hp : 0 < 2 ^ Z.of_nat n) by (apply Z.pow_pos_nonneg; lia).
  assert (ER : m mod 2 ^ Z.of_nat (S n) =
               m mod 2 ^ Z.of_nat n + 2 ^ Z.of_nat n * ((m / 2 ^ Z.of_nat n) mod 2)).
  { rewrite E2, Z.pow_add_r, Z.pow_1_r by lia. apply Z.rem_mul_r; lia. }
  rewrite ER.
  set (q := m / 2 ^ Z.of_nat (S n)).
  set (a := m / 2 ^ Z.of_nat n). set (b := m mod 2 ^ Z.of_nat n).
  set (h := 2 ^ Z.of_nat n) in *.
  assert (Hb : 0 <= b < h) by (apply Z.mod_pos_bound; exact Hp).
  assert (Ha : a mod 2 = if Z.odd a then 1 else 0) by (rewrite Zmod_odd; reflexivity).
  rewrite Ha. unfold loc_of_shr_record, round_nearest_even.
  destruct (Z.odd a); destruct (b =? 0) eqn:Eb; simpl negb; cbv iota.
  - apply Z.eqb_eq in Eb.
    replace (b + h * 1 <? h) with false by (symmetry; apply Z.ltb_ge; lia).
    replace (h <? b + h * 1) with false by (symmetry; apply Z.ltb_ge; lia).
    reflexivity.
  - apply Z.eqb_neq in Eb.
    replace (b + h * 1 <? h) with false by (symmetry; apply Z.ltb_ge; lia).
    replace (h <? b + h * 1) with true by (symmetry; apply Z.ltb_lt; lia).
    reflexivity.
  - replace (b + h * 0 <? h) with true by (symmetry; apply Z.ltb_lt; lia).
    reflexivity.
  - replace (b + h * 0 <? h) with true by (symmetry; apply Z.ltb_lt; lia).
    reflexivity.
Qed.

(** Facts on [rne]. *)
Lemma rne_bounds (m n : Z) :
  0 <= m -> 0 < n ->
  m / 2 ^ n <= rne m n <= m / 2 ^ n + 1.
Proof.
  intros Hm Hn. unfold rne.
  destruct (_ <? _); [lia |]. destruct (_ <? _); [lia |]. destruct (Z.even _); lia.
Qed.

Lemma rne_exact (a n : Z) : 0 < n -> rne (a * 2 ^ n) n = a.
Proof.
  intros Hn. unfold rne.
  assert (Hp : 0 < 2 ^ n) by (apply Z.pow_pos_nonneg; lia).
  assert (Hh : 0 < 2 ^ (n - 1)) by (apply Z.pow_pos_nonneg; lia).
  rewrite Z.div_mul, Z.mod_mul by lia.
  replace (0 <? 2 ^ (n - 1)) with true by (symmetry; apply Z.ltb_lt; lia).
  reflexivity.
Qed.

Lemma rne_mono (m m' n : Z) :
  0 <= m -> m <= m' -> 0 < n -> rne m n <= rne m' n.
Proof.
  intros Hm Hle Hn.
  assert (Hp : 0 < 2 ^ n) by (apply Z.pow_pos_nonneg; lia).
  assert (Hq : m / 2 ^ n <= m' / 2 ^ n) by (apply Z.div_le_mono; lia).
  destruct (Z.eq_dec (m / 2 ^ n) (m' / 2 ^ n)) as [E | E].
  - assert (Hr : m mod 2 ^ n <= m' mod 2 ^ n).
    { rewrite (Z.div_mod m (2 ^ n)), (Z.div_mod m' (2 ^ n)) in Hle by lia.
      rewrite E in Hle. lia. }
    unfold rne. rewrite <- E.
    set (q := m / 2 ^ n) in *. set (r := m mod 2 ^ n) in *.
    set (r' := m' mod 2 ^ n) in *. set (h := 2 ^ (n - 1)) in *.
    destruct (r <? h) eqn:A.
    + destruct (r' <? h); [lia |]. destruct (h <? r'); [lia |].
      destruct (Z.even q); lia.
    + apply Z.ltb_ge in A. replace (r' <? h) with false
        by (symmetry; apply Z.ltb_ge; lia).
      destruct (h <? r) eqn:B.
      * apply Z.ltb_lt in B.
        replace (h <? r') with true by (symmetry; apply Z.ltb_lt; lia). lia.
      * destruct (h <? r'); destruct (Z.even q); lia.
  - pose proof (rne_bounds m n Hm Hn). pose proof (rne_bounds m' n ltac:(lia) Hn). lia.
Qed.

(** Scaling the mantissa and the shift together does not change the
    result. *)
Lemma rne_scale (m n j : Z) :
  0 <= m -> 0 < n -> 0 <= j -> rne (m * 2 ^ j) (n + j) = rne m n.
Proof.
  intros Hm Hn Hj. unfold rne.
  assert (Hpj : 0 < 2 ^ j) by (apply Z.pow_pos_nonneg; lia).
  assert (Hpn : 0 < 2 ^ n) by (apply Z.pow_pos_nonneg; lia).
  assert (Hh : 0 < 2 ^ (n - 1)) by (apply Z.pow_pos_nonneg; lia).
  assert (E1 : 2 ^ (n + j) = 2 ^ n * 2 ^ j) by (apply Z.pow_add_r; lia).
  assert (E2 : 2 ^ (n + j - 1) = 2 ^ (n - 1) * 2 ^ j).
  { replace (n + j - 1) with ((n - 1) + j) by lia. apply Z.pow_add_r; lia. }
  rewrite E1, E2.
  rewrite Z.div_mul_cancel_r by lia.
  rewrite Zmult_mod_distr_r.
  set (q := m / 2 ^ n). set (r := m mod 2 ^ n). set (h := 2 ^ (n - 1)).
  assert (A : (r * 2 ^ j <? h * 2 ^ j) = (r <? h)).
  { destruct (r <? h) eqn:E.
    - apply Z.ltb_lt. apply Z.ltb_lt in E. nia.
    - apply Z.ltb_ge. apply Z.ltb_ge in E. nia. }
  assert (B : (h * 2 ^ j <? r * 2 ^ j) = (h <? r)).
  { destruct (h <? r) eqn:E.
    - apply Z.ltb_lt. apply Z.ltb_lt in E. nia.
    - apply Z.ltb_ge. apply Z.ltb_ge in E. nia. }
  rewrite A, B. reflexivity.
Qed.

(** ** Number of binary digits *)

Lemma pow2_pos (a : Z) : 0 <= a -> 0 < 2 ^ a.
Proof. intros. apply Z.pow_pos_nonneg; lia. Qed.

Lemma pow2_add (a b : Z) : 0 <= a -> 0 <= b -> 2 ^ (a + b) = 2 ^ a * 2 ^ b.
Proof. intros. apply Z.pow_add_r; assumption. Qed.

Lemma pow2_le (a b : Z) : 0 <= a <= b -> 2 ^ a <= 2 ^ b.
Proof. intros. apply Z.pow_le_mono_r; lia. Qed.

Lemma pow2_lt (a b : Z) : 0 <= a < b -> 2 ^ a < 2 ^ b.
Proof. intros. apply Z.pow_lt_mono_r; lia. Qed.

Lemma digits2_pos_bounds (p : positive) :
  2 ^ (Zpos (digits2_pos p) - 1) <= Zpos p < 2 ^ Zpos (digits2_pos p).
Proof.
  induction p as [p IH | p IH |]; cbn [digits2_pos].
  - rewrite Pos2Z.inj_succ, Pos2Z.inj_xI.
    replace (Z.succ (Zpos (digits2_pos p)) - 1) with (Z.succ (Zpos (digits2_pos p) - 1)) by lia.
    rewrite !Z.pow_succ_r by lia. lia.
  - rewrite Pos2Z.inj_succ. change (Zpos p~0) with (2 * Zpos p).
    replace (Z.succ (Zpos (digits2_pos p)) - 1) with (Z.succ (Zpos (digits2_pos p) - 1)) by lia.
    rewrite !Z.pow_succ_r by lia. lia.
  - split; [vm_compute; discriminate | vm_compute; reflexivity].
Qed.

Lemma dig_bounds (X : Z) :
  0 < X -> 1 <= Zdigits2 X /\ 2 ^ (Zdigits2 X - 1) <= X < 2 ^ Zdigits2 X.
Proof.
  intros HX. destruct X as [| p | p]; try lia. cbn [Zdigits2].
  split; [lia | apply digits2_pos_bounds].
Qed.

Lemma dig_unique (X a : Z) :
  0 < X -> 2 ^ (a - 1) <= X < 2 ^ a -> Zdigits2 X = a.
Proof.
  intros HX [H1 H2]. destruct (dig_bounds X HX) as (Hd & H3 & H4).
  assert (Ha : 1 <= a).
  { destruct (Z_lt_le_dec a 1) as [Hlt | Hge]; [exfalso | exact Hge].
    destruct (Z_lt_le_dec a 0) as [Hneg | Hpos].
    - rewrite Z.pow_neg_r in H2 by lia. lia.
    - assert (a = 0) by lia. subst a. simpl in H2. lia. }
  destruct (Z_lt_le_dec (Zdigits2 X) a) as [Hlt | Hge].
  - exfalso. assert (2 ^ Zdigits2 X <= 2 ^ (a - 1)) by (apply pow2_le; lia). lia.
  - destruct (Z_lt_le_dec a (Zdigits2 X)) as [Hlt | Hge'].
    + exfalso. assert (2 ^ a <= 2 ^ (Zdigits2 X - 1)) by (apply pow2_le; lia). lia.
    + lia.
Qed.

Lemma dig_mono (X Y : Z) : 0 < X -> X <= Y -> Zdigits2 X <= Zdigits2 Y.
Proof.
  intros HX Hle. destruct (dig_bounds X HX) as (Hd & H1 & H2).
  destruct (dig_bounds Y ltac:(lia)) as (Hd' & H3 & H4).
  destruct (Z_lt_le_dec (Zdigits2 Y) (Zdigits2 X)) as [Hlt | Hge]; [exfalso | exact Hge].
  assert (2 ^ Zdigits2 Y <= 2 ^ (Zdigits2 X - 1)) by (apply pow2_le; lia). lia.
Qed.

Lemma dig_scale (X j : Z) :
  0 < X -> 0 <= j -> Zdigits2 (X * 2 ^ j) = Zdigits2 X + j.
Proof.
  intros HX Hj. destruct (dig_bounds X HX) as (Hd & H1 & H2).
  assert (Hp : 0 < 2 ^ j) by (apply pow2_pos; lia).
  apply dig_unique; [nia |].
  replace (Zdigits2 X + j - 1) with ((Zdigits2 X - 1) + j) by lia.
  rewrite !pow2_add by lia. nia.
Qed.

(** ** Rounding a non-negative value to binary64 *)

Lemma expo_ge (X : Z) : 1074 <= expo X.
Proof. unfold expo, fexp64. lia. Qed.

Lemma round64_0 : round64 0 = 0.
Proof. reflexivity. Qed.

Lemma round64_nonneg (X : Z) : 0 <= X -> 0 <= round64 X.
Proof.
  intros HX. unfold round64. pose proof (expo_ge X).
  pose proof (rne_bounds X (expo X) HX ltac:(lia)).
  assert (0 <= X / 2 ^ expo X) by (apply Z.div_pos; [lia | apply pow2_pos; lia]).
  assert (0 < 2 ^ expo X) by (apply pow2_pos; lia). nia.
Qed.

Lemma round64_mono (X Y : Z) : 0 <= X -> X <= Y -> round64 X <= round64 Y.
Proof.
  intros HX Hle.
  destruct (Z.eq_dec X 0) as [-> | HX0].
  - rewrite round64_0. apply round64_nonneg. lia.
  - assert (HXp : 0 < X) by lia. assert (HYp : 0 < Y) by lia.
    pose proof (dig_mono X Y HXp Hle) as Hd.
    pose proof (expo_ge X) as KX. pose proof (expo_ge Y) as KY.
    destruct (dig_bounds X HXp) as (dX & X1 & X2).
    destruct (dig_bounds Y HYp) as (dY & Y1 & Y2).
    destruct (Z.eq_dec (expo X) (expo Y)) as [E | E].
    + unfold round64. rewrite <- E.
      pose proof (rne_mono X Y (expo X) HX Hle ltac:(lia)).
      assert (0 < 2 ^ expo X) by (apply pow2_pos; lia). nia.
    + assert (Hlt : expo X < expo Y) by (unfold expo, fexp64 in *; lia).
      assert (EY : expo Y = Zdigits2 Y - 53) by (unfold expo, fexp64 in *; lia).
      assert (Hdd : Zdigits2 X < Zdigits2 Y) by (unfold expo, fexp64 in *; lia).
      apply Z.le_trans with (2 ^ (Zdigits2 Y - 1)).
      * (* upper bound on the rounding of X *)
        unfold round64. set (k := expo X) in *.
        assert (Hk : 0 < 2 ^ k) by (apply pow2_pos; lia).
        destruct (Z_lt_le_dec (Zdigits2 X) k) as [Hsmall | Hbig].
        -- assert (Hh : X < 2 ^ (k - 1)).
           { apply Z.lt_le_trans with (2 ^ Zdigits2 X); [exact X2 |].
             apply pow2_le. lia. }
           assert (Hhk : 2 ^ (k - 1) < 2 ^ k) by (apply pow2_lt; lia).
           assert (E0 : rne X k = 0).
           { unfold rne. rewrite Z.div_small, Z.mod_small by lia.
             replace (X <? 2 ^ (k - 1)) with true by (symmetry; apply Z.ltb_lt; lia).
             reflexivity. }
           rewrite E0. simpl. apply Z.lt_le_incl. apply pow2_pos. lia.
        -- assert (EX : 2 ^ Zdigits2 X = 2 ^ (Zdigits2 X - k) * 2 ^ k).
           { rewrite <- pow2_add by lia. f_equal. lia. }
           assert (Hq : X / 2 ^ k < 2 ^ (Zdigits2 X - k)).
           { apply Z.div_lt_upper_bound; [exact Hk |]. lia. }
           pose proof (rne_bounds X k HX ltac:(lia)).
           assert (rne X k * 2 ^ k <= 2 ^ Zdigits2 X) by (rewrite EX; nia).
           assert (2 ^ Zdigits2 X <= 2 ^ (Zdigits2 Y - 1)) by (apply pow2_le; lia).
           lia.
      * (* lower bound on the rounding of Y *)
        unfold round64. rewrite EY.
        set (k := Zdigits2 Y - 53) in *.
        assert (Hk : 0 < 2 ^ k) by (apply pow2_pos; lia).
        assert (EYp : 2 ^ (Zdigits2 Y - 1) = 2 ^ 52 * 2 ^ k).
        { rewrite <- pow2_add by lia. f_equal. lia. }
        assert (Hq : 2 ^ 52 <= Y / 2 ^ k).
        { apply Z.div_le_lower_bound; [exact Hk |]. lia. }
        pose proof (rne_bounds Y k ltac:(lia) ltac:(lia)).
        rewrite EYp. nia.
Qed.

(** ** What [binary_round_aux] computes *)

Lemma fexp_fexp64 (t : Z) : fexp prec emax t = fexp64 t.
Proof. reflexivity. Qed.

Lemma shr_fexp_noshift (m e : Z) :
  fexp64 (Zdigits2 m + e) - e <= 0 ->
  shr_fexp prec emax m e loc_Exact = (Build_shr_record m false false, e).
Proof.
  intros H. unfold shr_fexp, shr. rewrite fexp_fexp64.
  destruct (fexp64 (Zdigits2 m + e) - e) eqn:E; try reflexivity. lia.
Qed.

Lemma shr_fexp_shift (m e : Z) (p : positive) :
  fexp64 (Zdigits2 m + e) - e = Zpos p ->
  shr_fexp prec emax m e loc_Exact =
  (iter_pos shr_1 p (Build_shr_record m false false), e + Zpos p).
Proof.
  intros H. unfold shr_fexp, shr. rewrite fexp_fexp64, H. reflexivity.
Qed.

(** The second stage of [binary_round_aux], on a mantissa of at most 53
    digits or equal to [2^53]. *)
Lemma round_aux_finish (s : bool) (m1 E : Z) :
  0 <= m1 <= 2 ^ 53 ->
  -1074 <= E ->
  (972 <= E + (if m1 =? 2 ^ 53 then 1 else 0) -> 2 ^ 52 <= m1) ->
  match
    (let '(mrs'', e'') := shr_fexp prec emax m1 E loc_Exact in
     match shr_m mrs'' with
     | Z0 => S754_zero s
     | Zpos m => if e'' <=? emax - prec then S754_finite s m e'' else S754_infinity s
     | Zneg _ => S754_nan
     end)
  with
  | S754_zero s' => s' = s /\ m1 = 0
  | S754_finite s' M E' =>
      s' = s /\ Zpos M * 2 ^ (E' + 2148) = m1 * 2 ^ (E + 2148) /\ -1074 <= E'
  | S754_infinity s' => s' = s /\ top64 <= m1 * 2 ^ (E + 2148)
  | S754_nan => False
  end.
Proof.
  intros [Hm0 Hm1] HE Hbig.
  destruct (Z.eq_dec m1 0) as [-> | Hnz].
  - rewrite shr_fexp_noshift by (unfold fexp64; simpl Zdigits2; lia).
    cbn [shr_m]. split; reflexivity.
  - assert (Hpos : 0 < m1) by lia.
    destruct (dig_bounds m1 Hpos) as (Hd & D1 & D2).
    destruct (Z.eq_dec m1 (2 ^ 53)) as [E53 | N53].
    + (* the mantissa was rounded up to 2^53 *)
      assert (Ed : Zdigits2 m1 = 54) by (rewrite E53; reflexivity).
      rewrite (shr_fexp_shift m1 E 1) by (rewrite Ed; unfold fexp64; lia).
      rewrite E53. cbn [iter_pos]. rewrite shr_1_nonneg by (vm_compute; discriminate).
      cbn [shr_m]. change (2 ^ 53 / 2) with (Zpos (2 ^ 52)).
      cbv iota.
      rewrite E53, Z.eqb_refl in Hbig.
      assert (Hval : Zpos (2 ^ 52) * 2 ^ (E + 1 + 2148) = 2 ^ 53 * 2 ^ (E + 2148)).
      { replace (E + 1 + 2148) with (1 + (E + 2148)) by lia.
        rewrite pow2_add by lia. change (Zpos (2 ^ 52)) with (2 ^ 52).
        change (2 ^ 53) with (2 ^ 52 * 2 ^ 1). ring. }
      destruct (E + 1 <=? emax - prec) eqn:Ele.
      * split; [reflexivity |]. split; [exact Hval | lia].
      * split; [reflexivity |]. apply Z.leb_gt in Ele.
        change (emax - prec) with 971 in Ele. unfold top64.
        assert (2 ^ (971 + 2148) <= 2 ^ (E + 2148)) by (apply pow2_le; lia).
        change (2 ^ (1024 + 2148)) with (2 ^ 53 * 2 ^ (971 + 2148)).
        assert (0 < 2 ^ 53) by reflexivity. nia.
    + assert (Hlt : m1 < 2 ^ 53) by lia.
      assert (Hd53 : Zdigits2 m1 <= 53).
      { destruct (Z_lt_le_dec 53 (Zdigits2 m1)) as [H | H]; [exfalso | exact H].
        assert (2 ^ 53 <= 2 ^ (Zdigits2 m1 - 1)) by (apply pow2_le; lia). lia. }
      rewrite shr_fexp_noshift by (unfold fexp64; lia).
      cbn [shr_m]. destruct m1 as [| p1 | p1]; try lia.
      replace (Zpos p1 =? 2 ^ 53) with false in Hbig
        by (symmetry; apply Z.eqb_neq; exact N53).
      destruct (E <=? emax - prec) eqn:Ele.
      * split; [reflexivity |]. split; [reflexivity | lia].
      * split; [reflexivity |]. apply Z.leb_gt in Ele.
        change (emax - prec) with 971 in Ele. unfold top64.
        assert (H52 : 2 ^ 52 <= Zpos p1) by (apply Hbig; lia).
        assert (2 ^ (972 + 2148) <= 2 ^ (E + 2148)) by (apply pow2_le; lia).
        change (2 ^ (1024 + 2148)) with (2 ^ 52 * 2 ^ (972 + 2148)).
        assert (0 < 2 ^ (972 + 2148)) by (apply pow2_pos; lia). nia.
Qed.

Lemma expo_scaled (m e : Z) :
  0 < m -> -2148 <= e ->
  expo (m * 2 ^ (e + 2148)) = fexp64 (Zdigits2 m + e) + 2148.
Proof.
  intros Hm He. unfold expo. rewrite dig_scale by lia. f_equal. f_equal. lia.
Qed.

(** Rounding a positive mantissa whose exponent is not above the target
    exponent: the result is the value rounded by [round64], or an infinity
    when that is beyond the largest double. *)
Lemma round_aux_sem (s : bool) (m e : Z) :
  0 < m ->
  -2148 <= e ->
  e <= fexp64 (Zdigits2 m + e) ->
  match binary_round_aux prec emax s m e loc_Exact with
  | S754_zero s' => s' = s /\ round64 (m * 2 ^ (e + 2148)) = 0
  | S754_finite s' M E' =>
      s' = s /\ Zpos M * 2 ^ (E' + 2148) = round64 (m * 2 ^ (e + 2148)) /\ -1074 <= E'
  | S754_infinity s' => s' = s /\ top64 <= round64 (m * 2 ^ (e + 2148))
  | S754_nan => False
  end.
Proof.
  intros Hm He Hk.
  destruct (dig_bounds m Hm) as (Hd & D1 & D2).
  set (E := fexp64 (Zdigits2 m + e)) in *.
  assert (HE : -1074 <= E) by (unfold E, fexp64; lia).
  assert (HEt : Zdigits2 m + e - 53 <= E) by (unfold E, fexp64; lia).
  assert (HEcases : E = -1074 \/ E = Zdigits2 m + e - 53) by (unfold E, fexp64; lia).
  assert (Hround : forall m1,
             rne (m * 2 ^ (e + 2148)) (E + 2148) = m1 ->
             round64 (m * 2 ^ (e + 2148)) = m1 * 2 ^ (E + 2148)).
  { intros m1 <-. unfold round64. rewrite expo_scaled by lia. reflexivity. }
  assert (Hfinish : forall m1,
             rne (m * 2 ^ (e + 2148)) (E + 2148) = m1 ->
             0 <= m1 <= 2 ^ 53 ->
             (972 <= E + 1 -> 2 ^ 52 <= m1) ->
             match
               (let '(mrs'', e'') := shr_fexp prec emax m1 E loc_Exact in
                match shr_m mrs'' with
                | Z0 => S754_zero s
                | Zpos m => if e'' <=? emax - prec then S754_finite s m e''
                            else S754_infinity s
                | Zneg _ => S754_nan
                end)
             with
             | S754_zero s' => s' = s /\ round64 (m * 2 ^ (e + 2148)) = 0
             | S754_finite s' M E' =>
                 s' = s /\
                 Zpos M * 2 ^ (E' + 2148) = round64 (m * 2 ^ (e + 2148)) /\
                 -1074 <= E'
             | S754_infinity s' => s' = s /\ top64 <= round64 (m * 2 ^ (e + 2148))
             | S754_nan => False
             end).
  { intros m1 Hr Hb Hbig. rewrite (Hround m1 Hr).
    assert (Hbig' : 972 <= E + (if m1 =? 2 ^ 53 then 1 else 0) -> 2 ^ 52 <= m1).
    { intros H. apply Hbig. destruct (m1 =? 2 ^ 53); lia. }
    pose proof (round_aux_finish s m1 E Hb HE Hbig') as F.
    destruct (let '(mrs'', e'') := shr_fexp prec emax m1 E loc_Exact in _)
      as [s' | s' | | s' M E'].
    - destruct F as [F1 F2]. split; [exact F1 |]. rewrite F2. reflexivity.
    - exact F.
    - exact F.
    - exact F. }
  unfold binary_round_aux.
  destruct (Z.eq_dec E e) as [Ee | Ene].
  - (* no shift *)
    rewrite shr_fexp_noshift by (fold E; lia).
    cbn [shr_m loc_of_shr_record round_nearest_even].
    replace (shr_fexp prec emax m e loc_Exact)
      with (shr_fexp prec emax m E loc_Exact) by (rewrite Ee; reflexivity).
    assert (Hd53 : Zdigits2 m <= 53) by lia.
    assert (Hm53 : m < 2 ^ 53).
    { apply Z.lt_le_trans with (2 ^ Zdigits2 m); [exact D2 | apply pow2_le; lia]. }
    apply Hfinish.
    + rewrite Ee. apply rne_exact. lia.
    + lia.
    + intros H972. assert (Zdigits2 m = 53) by lia.
      replace (Zdigits2 m - 1) with 52 in D1 by lia. exact D1.
  - (* a shift by k > 0 *)
    assert (Hkpos : 0 < E - e) by lia.
    destruct (E - e) as [| p | p] eqn:Ek; try lia.
    rewrite (shr_fexp_shift m e p) by (fold E; exact Ek).
    destruct (shr_rne m p ltac:(lia)) as [_ Hrne]. cbv zeta in Hrne.
    rewrite Hrne. replace (e + Zpos p) with E by lia.
    assert (Hb : m / 2 ^ Zpos p < 2 ^ 53).
    { apply Z.div_lt_upper_bound; [apply pow2_pos; lia |].
      apply Z.lt_le_trans with (2 ^ Zdigits2 m); [exact D2 |].
      rewrite <- pow2_add by lia. apply pow2_le. lia. }
    pose proof (rne_bounds m (Zpos p) ltac:(lia) ltac:(lia)) as Rb.
    assert (Hq0 : 0 <= m / 2 ^ Zpos p).
    { apply Z.div_pos; [lia | apply pow2_pos; lia]. }
    apply Hfinish.
    + replace (E + 2148) with (Zpos p + (e + 2148)) by lia.
      apply rne_scale; lia.
    + lia.
    + intros H972.
      assert (Ep : Zpos p = Zdigits2 m - 53) by lia.
      assert (2 ^ 52 <= m / 2 ^ Zpos p); [| lia].
      apply Z.div_le_lower_bound; [apply pow2_pos; lia |].
      rewrite Z.mul_comm, <- pow2_add by lia.
      replace (52 + Zpos p) with (Zdigits2 m - 1) by lia. exact D1.
Qed.

(** ** The order of binary64 numbers *)

Lemma valid_finite (s : bool) (m : positive) (e : Z) :
  valid_binary (S754_finite s m e) = true ->
  fexp64 (Zdigits2 (Zpos m) + e) = e /\ -1074 <= e <= 971 /\
  Zpos m < 2 ^ 53 /\ (-1074 < e -> 2 ^ 52 <= Zpos m).
Proof.
  unfold SpecFloat.valid_binary, bounded, canonical_mantissa.
  rewrite andb_true_iff, Z.eqb_eq, Z.leb_le, fexp_fexp64.
  change (emax - prec) with 971. intros [Hc He].
  change (Zpos (digits2_pos m)) with (Zdigits2 (Zpos m)) in Hc.
  destruct (dig_bounds (Zpos m) ltac:(lia)) as (Hd & D1 & D2).
  split; [exact Hc |]. unfold fexp64 in Hc.
  split; [lia |]. split.
  - apply Z.lt_le_trans with (2 ^ Zdigits2 (Zpos m)); [exact D2 | apply pow2_le; lia].
  - intros Hn. assert (Zdigits2 (Zpos m) = 53) by lia.
    replace (Zdigits2 (Zpos m) - 1) with 52 in D1 by lia. exact D1.
Qed.

Lemma mag_finite_bounds (s : bool) (m : positive) (e : Z) :
  valid_binary (S754_finite s m e) = true ->
  0 < mag (S754_finite s m e) < top64.
Proof.
  intros Hv. destruct (valid_finite s m e Hv) as (_ & He & Hm & _).
  cbn [mag]. assert (Hp : 0 < 2 ^ (e + 2148)) by (apply pow2_pos; lia).
  split; [nia |]. unfold top64.
  assert (2 ^ (e + 2148) <= 2 ^ (971 + 2148)) by (apply pow2_le; lia).
  change (2 ^ (1024 + 2148)) with (2 ^ 53 * 2 ^ (971 + 2148)).
  assert (0 < 2 ^ (971 + 2148)) by (apply pow2_pos; lia). nia.
Qed.

Lemma valid_finite_compare (s1 s2 : bool) (m1 m2 : positive) (e1 e2 : Z) :
  valid_binary (S754_finite s1 m1 e1) = true ->
  valid_binary (S754_finite s2 m2 e2) = true ->
  match e1 ?= e2 with
  | Lt => Lt
  | Gt => Gt
  | Eq => Pos.compare_cont Eq m1 m2
  end = (mag (S754_finite s1 m1 e1) ?= mag (S754_finite s2 m2 e2)).
Proof.
  intros V1 V2.
  destruct (valid_finite s1 m1 e1 V1) as (_ & He1 & Hm1 & Hn1).
  destruct (valid_finite s2 m2 e2 V2) as (_ & He2 & Hm2 & Hn2).
  cbn [mag]. symmetry.
  destruct (Z.compare_spec e1 e2) as [E | L | G].
  - subst e2. change (Pos.compare_cont Eq m1 m2) with (Zpos m1 ?= Zpos m2).
    assert (Hp : 0 < 2 ^ (e1 + 2148)) by (apply pow2_pos; lia).
    destruct (Z.compare_spec (Zpos m1) (Zpos m2)) as [A | A | A].
    + rewrite A. apply Z.compare_refl.
    + apply Z.compare_lt_iff. nia.
    + apply Z.compare_gt_iff. nia.
  - apply Z.compare_lt_iff.
    assert (H52 : 2 ^ 52 <= Zpos m2) by (apply Hn2; lia).
    assert (Hp : 2 ^ (e2 + 2148) = 2 ^ (e2 - e1) * 2 ^ (e1 + 2148)).
    { rewrite <- pow2_add by lia. f_equal. lia. }
    assert (H2 : 2 <= 2 ^ (e2 - e1)).
    { change 2 with (2 ^ 1) at 1. apply pow2_le. lia. }
    assert (0 < 2 ^ (e1 + 2148)) by (apply pow2_pos; lia).
    rewrite Hp. change (2 ^ 53) with (2 * 2 ^ 52) in Hm1. nia.
  - apply Z.compare_gt_iff.
    assert (H52 : 2 ^ 52 <= Zpos m1) by (apply Hn1; lia).
    assert (Hp : 2 ^ (e1 + 2148) = 2 ^ (e1 - e2) * 2 ^ (e2 + 2148)).
    { rewrite <- pow2_add by lia. f_equal. lia. }
    assert (H2 : 2 <= 2 ^ (e1 - e2)).
    { change 2 with (2 ^ 1) at 1. apply pow2_le. lia. }
    assert (0 < 2 ^ (e2 + 2148)) by (apply pow2_pos; lia).
    rewrite Hp. change (2 ^ 53) with (2 * 2 ^ 52) in Hm2. nia.
Qed.

Lemma top64_pos : 0 < top64.
Proof. unfold top64. apply pow2_pos. lia. Qed.

(** On valid numbers other than NaN, [SFcompare] compares ranks. *)
Lemma SFcompare_rank (f1 f2 : spec_float) :
  valid_binary f1 = true ->
  valid_binary f2 = true ->
  f1 <> S754_nan ->
  f2 <> S754_nan ->
  SFcompare f1 f2 = Some (rank f1 ?= rank f2).
Proof.
  intros V1 V2 N1 N2. pose proof top64_pos as Ht.
  destruct f1 as [s1 | s1 | | s1 m1 e1]; try congruence;
    destruct f2 as [s2 | s2 | | s2 m2 e2]; try congruence;
    try pose proof (mag_finite_bounds s1 m1 e1 V1) as B1;
    try pose proof (mag_finite_bounds s2 m2 e2 V2) as B2;
    cbn [SFcompare]; f_equal;
    try (symmetry;
         try destruct s1; try destruct s2; cbn [rank mag] in *;
         first [apply Z.compare_refl | apply Z.compare_lt_iff; lia
                | apply Z.compare_gt_iff; lia]; fail).
  - pose proof (valid_finite_compare s1 s2 m1 m2 e1 e2 V1 V2) as C.
    destruct s1, s2; cbn [rank].
    + rewrite Z.compare_opp.
      rewrite (Z.compare_antisym (mag (S754_finite true m1 e1))).
      rewrite <- C. destruct (e1 ?= e2); reflexivity.
    + symmetry. apply Z.compare_lt_iff. lia.
    + symmetry. apply Z.compare_gt_iff. lia.
    + exact C.
Qed.

(** ** Correctly rounded results *)

Lemma rank_opp (f : spec_float) : rank (SFopp f) = - rank f.
Proof. destruct f as [s | s | | s m e]; try destruct s; cbn [SFopp negb rank mag]; lia. Qed.

Lemma valid_opp (f : spec_float) : valid_binary (SFopp f) = valid_binary f.
Proof. destruct f; reflexivity. Qed.

Lemma rounds_rank (f : spec_float) (X : Z) :
  Rounds f X -> f <> S754_nan /\ rank f = mag f /\ 0 <= rank f.
Proof.
  pose proof top64_pos as Ht.
  destruct f as [s | [|] | | [|] m e]; cbn [Rounds rank mag]; intros H;
    try contradiction; (split; [discriminate |]); (split; [reflexivity |]); lia.
Qed.

Lemma rounds_mono (f1 f2 : spec_float) (X Y : Z) :
  valid_binary f1 = true ->
  valid_binary f2 = true ->
  Rounds f1 X -> Rounds f2 Y ->
  0 <= X -> X <= Y ->
  rank f1 <= rank f2.
Proof.
  intros V1 V2 R1 R2 HX Hle.
  pose proof (round64_mono X Y HX Hle) as Hm.
  pose proof (round64_nonneg X HX) as HX0.
  pose proof top64_pos as Ht.
  destruct (rounds_rank f1 X R1) as (_ & E1 & _).
  destruct (rounds_rank f2 Y R2) as (_ & E2 & _).
  rewrite E1, E2.
  destruct f1 as [s1 | [|] | | [|] m1 e1]; cbn [Rounds] in R1; try contradiction;
    destruct f2 as [s2 | [|] | | [|] m2 e2]; cbn [Rounds] in R2; try contradiction;
    try pose proof (mag_finite_bounds false m1 e1 V1) as B1;
    try pose proof (mag_finite_bounds false m2 e2 V2) as B2;
    cbn [mag] in *; lia.
Qed.

Lemma roundsZ_mono (f1 f2 : spec_float) (S S' : Z) :
  valid_binary f1 = true ->
  valid_binary f2 = true ->
  RoundsZ f1 S -> RoundsZ f2 S' ->
  S <= S' ->
  rank f1 <= rank f2.
Proof.
  unfold RoundsZ. intros V1 V2 R1 R2 Hle.
  destruct (0 <=? S) eqn:A; destruct (0 <=? S') eqn:B;
    try apply Z.leb_le in A; try apply Z.leb_le in B;
    try apply Z.leb_gt in A; try apply Z.leb_gt in B.
  - apply (rounds_mono f1 f2 S S'); assumption.
  - lia.
  - destruct (rounds_rank _ _ R1) as (_ & _ & H1).
    destruct (rounds_rank _ _ R2) as (_ & _ & H2).
    rewrite rank_opp in H1. lia.
  - assert (H : rank (SFopp f2) <= rank (SFopp f1)).
    { apply (rounds_mono (SFopp f2) (SFopp f1) (- S') (- S));
        try rewrite valid_opp; try assumption; lia. }
    rewrite !rank_opp in H. lia.
Qed.

Lemma roundsZ_not_nan (f : spec_float) (S : Z) : RoundsZ f S -> f <> S754_nan.
Proof.
  unfold RoundsZ. destruct (0 <=? S); intros H E; subst f; exact H.
Qed.

(** A valid number is its own rounding. *)
Lemma round64_exact (s : bool) (m : positive) (e : Z) :
  valid_binary (S754_finite s m e) = true ->
  round64 (Zpos m * 2 ^ (e + 2148)) = Zpos m * 2 ^ (e + 2148).
Proof.
  intros V. destruct (valid_finite s m e V) as (Hc & He & _).
  unfold round64. rewrite expo_scaled, Hc by lia.
  rewrite rne_exact by lia. reflexivity.
Qed.

Lemma roundsZ_exact (f : spec_float) :
  valid_binary f = true ->
  match f with S754_zero _ | S754_finite _ _ _ => True | _ => False end ->
  RoundsZ f (rank f).
Proof.
  intros V Hf. destruct f as [s | s | | s m e]; try contradiction.
  - unfold RoundsZ. cbn [rank mag]. simpl. reflexivity.
  - pose proof (mag_finite_bounds s m e V) as B.
    pose proof (round64_exact s m e V) as Ex.
    unfold RoundsZ. destruct s; cbn [rank].
    + replace (0 <=? - mag (S754_finite true m e)) with false
        by (symmetry; apply Z.leb_gt; lia).
      cbn [SFopp negb Rounds]. rewrite Z.opp_involutive. cbn [mag]. symmetry. exact Ex.
    + replace (0 <=? mag (S754_finite false m e)) with true
        by (symmetry; apply Z.leb_le; lia).
      cbn [Rounds mag]. symmetry. exact Ex.
Qed.

Lemma iter_xO (p d : positive) : Zpos (Pos.iter xO p d) = Zpos p * 2 ^ Zpos d.
Proof.
  induction d as [| d IH] using Pos.peano_ind.
  - rewrite Pos.iter_succ_r || idtac. simpl Pos.iter.
    change (Zpos p~0) with (2 * Zpos p). change (2 ^ 1) with 2. ring.
  - rewrite Pos.iter_succ, Pos2Z.inj_succ, Z.pow_succ_r by lia.
    change (Zpos (Pos.iter xO p d)~0) with (2 * Zpos (Pos.iter xO p d)).
    rewrite IH. ring.
Qed.

Lemma shl_align_value (m : positive) (e e' : Z) :
  e' <= e ->
  let '(m', e'') := shl_align m e e' in
  e'' = e' /\ Zpos m' = Zpos m * 2 ^ (e - e').
Proof.
  intros Hle. unfold shl_align.
  destruct (e' - e) as [| d | d] eqn:E; try lia.
  - split; [lia |]. replace (e - e') with 0 by lia. simpl. lia.
  - split; [reflexivity |]. rewrite iter_xO. f_equal. f_equal. lia.
Qed.

(** What [binary_round] computes. *)
Lemma binary_round_sem (s : bool) (p : positive) (e : Z) :
  -2148 <= e ->
  match binary_round prec emax s p e with
  | S754_zero s' => s' = s /\ round64 (Zpos p * 2 ^ (e + 2148)) = 0
  | S754_finite s' M E' =>
      s' = s /\ Zpos M * 2 ^ (E' + 2148) = round64 (Zpos p * 2 ^ (e + 2148)) /\
      -1074 <= E'
  | S754_infinity s' => s' = s /\ top64 <= round64 (Zpos p * 2 ^ (e + 2148))
  | S754_nan => False
  end.
Proof.
  intros He. unfold binary_round. rewrite fexp_fexp64.
  change (Zpos (digits2_pos p)) with (Zdigits2 (Zpos p)).
  set (E := fexp64 (Zdigits2 (Zpos p) + e)).
  assert (HE : -1074 <= E) by (unfold E, fexp64; lia).
  destruct (Z_le_gt_dec E e) as [Hle | Hgt].
  - pose proof (shl_align_value p e E Hle) as A.
    destruct (shl_align p e E) as [mz ez]. destruct A as [-> Hmz].
    assert (Hd : Zdigits2 (Zpos mz) + E = Zdigits2 (Zpos p) + e).
    { rewrite Hmz, dig_scale by lia. lia. }
    assert (Hval : Zpos mz * 2 ^ (E + 2148) = Zpos p * 2 ^ (e + 2148)).
    { rewrite Hmz, <- Z.mul_assoc, <- pow2_add by lia. f_equal. f_equal. lia. }
    rewrite <- Hval. apply round_aux_sem; [lia | lia |].
    rewrite Hd. fold E. lia.
  - assert (A : shl_align p e E = (p, e)).
    { unfold shl_align. destruct (E - e) eqn:Ed; try reflexivity. lia. }
    rewrite A. apply round_aux_sem; [lia | lia | fold E; lia].
Qed.

Lemma binary_normalize_sem (S e : Z) :
  -2148 <= e ->
  RoundsZ (binary_normalize prec emax S e false) (S * 2 ^ (e + 2148)).
Proof.
  intros He. assert (Hp : 0 < 2 ^ (e + 2148)) by (apply pow2_pos; lia).
  unfold RoundsZ. destruct S as [| p | p]; cbn [binary_normalize].
  - simpl. reflexivity.
  - replace (0 <=? Zpos p * 2 ^ (e + 2148)) with true
      by (symmetry; apply Z.leb_le; nia).
    pose proof (binary_round_sem false p e He) as B.
    destruct (binary_round prec emax false p e) as [s' | s' | | s' M E'].
    + cbn [Rounds]. exact (proj2 B).
    + destruct B as [-> B]. exact B.
    + exact B.
    + destruct B as (-> & B & _). exact B.
  - replace (0 <=? Zneg p * 2 ^ (e + 2148)) with false
      by (symmetry; apply Z.leb_gt; nia).
    replace (- (Zneg p * 2 ^ (e + 2148))) with (Zpos p * 2 ^ (e + 2148)) by lia.
    pose proof (binary_round_sem true p e He) as B.
    destruct (binary_round prec emax true p e) as [s' | s' | | s' M E'].
    + cbn [SFopp Rounds]. exact (proj2 B).
    + destruct B as [-> B]. exact B.
    + exact B.
    + destruct B as (-> & B & _). exact B.
Qed.

(** ** Sums, differences and products *)

Lemma aligned_rank (s : bool) (m : positive) (e ez : Z) :
  -1074 <= ez -> ez <= e ->
  cond_Zopp s (Zpos (fst (shl_align m e ez))) * 2 ^ (ez + 2148) =
  rank (S754_finite s m e).
Proof.
  intros Hz Hle. pose proof (shl_align_value m e ez Hle) as A.
  destruct (shl_align m e ez) as [m' e']. destruct A as [_ A]. cbn [fst].
  assert (E : Zpos m' * 2 ^ (ez + 2148) = Zpos m * 2 ^ (e + 2148)).
  { rewrite A, <- Z.mul_assoc, <- pow2_add by lia. f_equal. f_equal. lia. }
  destruct s; cbn [cond_Zopp rank mag]; lia.
Qed.

Lemma SFadd_sem (x y : spec_float) :
  valid_binary x = true -> valid_binary y = true -> fz x -> fz y ->
  RoundsZ (SFadd prec emax x y) (rank x + rank y).
Proof.
  intros Vx Vy Fx Fy.
  destruct x as [sx | sx | | sx mx ex]; try contradiction;
    destruct y as [sy | sy | | sy my ey]; try contradiction.
  - cbn [SFadd rank mag]. destruct sx, sy; reflexivity.
  - cbn [SFadd]. change (rank (S754_zero sx)) with 0. rewrite Z.add_0_l.
    apply roundsZ_exact; [exact Vy | exact I].
  - cbn [SFadd]. change (rank (S754_zero sy)) with 0. rewrite Z.add_0_r.
    apply roundsZ_exact; [exact Vx | exact I].
  - cbn [SFadd].
    destruct (valid_finite sx mx ex Vx) as (_ & Hex & _).
    destruct (valid_finite sy my ey Vy) as (_ & Hey & _).
    rewrite <- (aligned_rank sx mx ex (Z.min ex ey)) by lia.
    rewrite <- (aligned_rank sy my ey (Z.min ex ey)) by lia.
    rewrite <- Z.mul_add_distr_r. apply binary_normalize_sem. lia.
Qed.

Lemma SFsub_sem (x y : spec_float) :
  valid_binary x = true -> valid_binary y = true -> fz x -> fz y ->
  RoundsZ (SFsub prec emax x y) (rank x - rank y).
Proof.
  intros Vx Vy Fx Fy.
  destruct x as [sx | sx | | sx mx ex]; try contradiction;
    destruct y as [sy | sy | | sy my ey]; try contradiction.
  - cbn [SFsub rank mag]. destruct sx, sy; reflexivity.
  - cbn [SFsub]. change (rank (S754_zero sx)) with 0. rewrite Z.sub_0_l.
    change (S754_finite (negb sy) my ey) with (SFopp (S754_finite sy my ey)).
    rewrite <- rank_opp.
    apply roundsZ_exact; [rewrite valid_opp; exact Vy | exact I].
  - cbn [SFsub]. change (rank (S754_zero sy)) with 0. rewrite Z.sub_0_r.
    apply roundsZ_exact; [exact Vx | exact I].
  - cbn [SFsub].
    destruct (valid_finite sx mx ex Vx) as (_ & Hex & _).
    destruct (valid_finite sy my ey Vy) as (_ & Hey & _).
    rewrite <- (aligned_rank sx mx ex (Z.min ex ey)) by lia.
    rewrite <- (aligned_rank sy my ey (Z.min ex ey)) by lia.
    rewrite <- Z.mul_sub_distr_r. apply binary_normalize_sem. lia.
Qed.

Lemma mul_shift (mx my : positive) (ex ey : Z) :
  valid_binary (S754_finite false mx ex) = true ->
  valid_binary (S754_finite false my ey) = true ->
  ex + ey <= fexp64 (Zdigits2 (Zpos mx * Zpos my) + (ex + ey)).
Proof.
  intros Vx Vy.
  destruct (valid_finite false mx ex Vx) as (Cx & Hex & _ & _).
  destruct (valid_finite false my ey Vy) as (Cy & Hey & _ & _).
  destruct (dig_bounds (Zpos mx) ltac:(lia)) as (Dx & X1 & X2).
  destruct (dig_bounds (Zpos my) ltac:(lia)) as (Dy & Y1 & Y2).
  set (dx := Zdigits2 (Zpos mx)) in *. set (dy := Zdigits2 (Zpos my)) in *.
  assert (Hd : dx + dy - 1 <= Zdigits2 (Zpos mx * Zpos my)).
  { assert (Hlow : 2 ^ (dx + dy - 2) <= Zpos mx * Zpos my).
    { replace (dx + dy - 2) with ((dx - 1) + (dy - 1)) by lia.
      rewrite pow2_add by lia.
      assert (0 < 2 ^ (dx - 1)) by (apply pow2_pos; lia).
      assert (0 < 2 ^ (dy - 1)) by (apply pow2_pos; lia). nia. }
    assert (E : Zdigits2 (2 ^ (dx + dy - 2)) = dx + dy - 1).
    { apply dig_unique; [apply pow2_pos; lia |].
      replace (dx + dy - 1 - 1) with (dx + dy - 2) by lia.
      split; [lia | apply pow2_lt; lia]. }
    rewrite <- E. apply dig_mono; [apply pow2_pos; lia | exact Hlow]. }
  unfold fexp64 in *. lia.
Qed.

Lemma SFmul_sem (mx my : positive) (ex ey : Z) :
  valid_binary (S754_finite false mx ex) = true ->
  valid_binary (S754_finite false my ey) = true ->
  Rounds (SFmul prec emax (S754_finite false mx ex) (S754_finite false my ey))
         (Zpos mx * Zpos my * 2 ^ (ex + ey + 2148)).
Proof.
  intros Vx Vy.
  destruct (valid_finite false mx ex Vx) as (_ & Hex & _).
  destruct (valid_finite false my ey Vy) as (_ & Hey & _).
  cbn [SFmul xorb]. change (Zpos (mx * my)) with (Zpos mx * Zpos my).
  pose proof (round_aux_sem false (Zpos mx * Zpos my) (ex + ey)
                ltac:(lia) ltac:(lia) (mul_shift mx my ex ey Vx Vy)) as B.
  destruct (binary_round_aux prec emax false (Zpos mx * Zpos my) (ex + ey) loc_Exact)
    as [s' | s' | | s' M E'].
  - exact (proj2 B).
  - destruct B as [-> B]. exact B.
  - exact B.
  - destruct B as (-> & B & _). exact B.
Qed.

(** ** Doubles *)

Lemma SFcompare_nan_l (f : spec_float) : SFcompare S754_nan f = None.
Proof. reflexivity. Qed.

Lemma SFcompare_nan_r (f : spec_float) : SFcompare f S754_nan = None.
Proof. destruct f; reflexivity. Qed.

Lemma compare_rank (x y : float) :
  notnan x -> notnan y ->
  SFcompare (Prim2SF x) (Prim2SF y) = Some (frank x ?= frank y).
Proof.
  intros Nx Ny. apply SFcompare_rank; try assumption; apply Prim2SF_valid.
Qed.

Lemma leb_rank (x y : float) :
  PrimFloat.leb x y = true <-> notnan x /\ notnan y /\ frank x <= frank y.
Proof.
  rewrite leb_spec. unfold SFleb. split.
  - intros H.
    assert (Nx : notnan x).
    { intros E. rewrite E, SFcompare_nan_l in H. discriminate. }
    assert (Ny : notnan y).
    { intros E. rewrite E, SFcompare_nan_r in H. discriminate. }
    split; [exact Nx |]. split; [exact Ny |].
    rewrite (compare_rank x y Nx Ny) in H.
    destruct (Z.compare_spec (frank x) (frank y)); [lia | lia | discriminate].
  - intros (Nx & Ny & H). rewrite (compare_rank x y Nx Ny).
    destruct (Z.compare_spec (frank x) (frank y)); [reflexivity | reflexivity | lia].
Qed.

Lemma ltb_rank (x y : float) :
  PrimFloat.ltb x y = true <-> notnan x /\ notnan y /\ frank x < frank y.
Proof.
  rewrite ltb_spec. unfold SFltb. split.
  - intros H.
    assert (Nx : notnan x).
    { intros E. rewrite E, SFcompare_nan_l in H. discriminate. }
    assert (Ny : notnan y).
    { intros E. rewrite E, SFcompare_nan_r in H. discriminate. }
    split; [exact Nx |]. split; [exact Ny |].
    rewrite (compare_rank x y Nx Ny) in H.
    destruct (Z.compare_spec (frank x) (frank y)); [discriminate | lia | discriminate].
  - intros (Nx & Ny & H). rewrite (compare_rank x y Nx Ny).
    destruct (Z.compare_spec (frank x) (frank y)); [lia | reflexivity | lia].
Qed.

Lemma rank_bounds (f : spec_float) :
  valid_binary f = true -> - top64 <= rank f <= top64.
Proof.
  intros V. pose proof top64_pos.
  destruct f as [s | [|] | | s m e]; cbn [rank mag]; try lia.
  pose proof (mag_finite_bounds s m e V). destruct s; cbn [mag] in *; lia.
Qed.

Lemma nn_of_rank (f : spec_float) :
  valid_binary f = true -> f <> S754_nan -> 0 <= rank f -> nn f.
Proof.
  intros V N H. pose proof top64_pos.
  destruct f as [s | [|] | | [|] m e]; cbn [nn]; try exact I; try congruence.
  - cbn [rank mag] in H. lia.
  - pose proof (mag_finite_bounds true m e V). cbn [rank] in H. lia.
Qed.

Lemma nn_of_leb (x : float) : PrimFloat.leb 0 x = true -> nn (Prim2SF x).
Proof.
  intros H. apply leb_rank in H. destruct H as (_ & N & H).
  apply nn_of_rank; [apply Prim2SF_valid | exact N | exact H].
Qed.

Lemma fz_rank_lt (f : spec_float) :
  valid_binary f = true -> fz f -> rank f < top64.
Proof.
  intros V F. pose proof top64_pos.
  destruct f as [s | s | | s m e]; try contradiction; cbn [rank mag]; try lia.
  pose proof (mag_finite_bounds s m e V). destruct s; cbn [mag] in *; lia.
Qed.

Lemma nn_cases (f : spec_float) :
  nn f -> f = S754_infinity false \/ (fz f /\ rank f = mag f).
Proof.
  destruct f as [s | [|] | | [|] m e]; cbn [nn]; intros H; try contradiction.
  - right. split; [exact I | reflexivity].
  - left. reflexivity.
  - right. split; [exact I | reflexivity].
Qed.

(** Multiplying by a positive finite double is monotone on non-negative
    doubles. *)
Lemma mul_rounds (A : spec_float) (mc : positive) (ec : Z) :
  valid_binary A = true ->
  valid_binary (S754_finite false mc ec) = true ->
  nn A -> fz A ->
  exists X,
    Rounds (SFmul prec emax A (S754_finite false mc ec)) X /\
    0 <= X /\
    X * 2 ^ 1074 = mag A * (Zpos mc * 2 ^ (ec + 1074)).
Proof.
  intros VA VC NA FA.
  destruct A as [s | s | | [|] m e]; try contradiction.
  - exists 0. cbn [SFmul Rounds mag]. repeat split; reflexivity || lia.
  - destruct (valid_finite false m e VA) as (_ & He & _).
    destruct (valid_finite false mc ec VC) as (_ & Hec & _).
    exists (Zpos m * Zpos mc * 2 ^ (e + ec + 2148)).
    split; [apply SFmul_sem; assumption |].
    assert (0 < 2 ^ (e + ec + 2148)) by (apply pow2_pos; lia).
    split; [nia |]. cbn [mag].
    replace (Zpos m * Zpos mc * 2 ^ (e + ec + 2148) * 2 ^ 1074)
      with (Zpos m * Zpos mc * (2 ^ (e + ec + 2148) * 2 ^ 1074)) by ring.
    rewrite <- pow2_add by lia.
    replace (e + ec + 2148 + 1074) with ((e + 2148) + (ec + 1074)) by lia.
    rewrite pow2_add by lia. ring.
Qed.

Lemma mul_mono_r (a b c : float) (mc : positive) (ec : Z) :
  Prim2SF c = S754_finite false mc ec ->
  PrimFloat.leb 0 a = true ->
  PrimFloat.leb a b = true ->
  PrimFloat.leb (a * c) (b * c) = true.
Proof.
  intros Ec Ha Hab.
  pose proof (nn_of_leb a Ha) as NA.
  assert (Hb : PrimFloat.leb 0 b = true).
  { apply leb_rank in Ha. apply leb_rank in Hab. apply leb_rank.
    destruct Ha as (N0 & _ & Ha). destruct Hab as (_ & Nb & Hab).
    split; [exact N0 |]. split; [exact Nb | lia]. }
  pose proof (nn_of_leb b Hb) as NB.
  apply leb_rank in Hab. destruct Hab as (_ & _ & Hab).
  pose proof (Prim2SF_valid a) as VA. pose proof (Prim2SF_valid b) as VB.
  pose proof (Prim2SF_valid c) as VC.
  pose proof (Prim2SF_valid (a * c)) as VAC.
  pose proof (Prim2SF_valid (b * c)) as VBC.
  apply leb_rank. unfold notnan, frank in *.
  rewrite !mul_spec in *. unfold SF64mul in *. rewrite Ec in *.
  set (C := S754_finite false mc ec) in *.
  pose proof top64_pos as Ht.
  destruct (nn_cases _ NB) as [EB | [FB RB]].
  - (* b is infinite *)
    rewrite EB. change (SFmul prec emax (S754_infinity false) C)
      with (S754_infinity false).
    destruct (nn_cases _ NA) as [EA | [FA RA]].
    + rewrite EA. change (SFmul prec emax (S754_infinity false) C)
        with (S754_infinity false).
      split; [discriminate |]. split; [discriminate | lia].
    + destruct (mul_rounds _ mc ec VA VC NA FA) as (X & RX & _ & _).
      destruct (rounds_rank _ _ RX) as (N & _ & _).
      split; [exact N |]. split; [discriminate |].
      pose proof (rank_bounds _ VAC). cbn [rank mag]. lia.
  - destruct (nn_cases _ NA) as [EA | [FA RA]].
    + exfalso. rewrite EA in Hab. cbn [rank mag] in Hab.
      pose proof (fz_rank_lt _ VB FB). lia.
    + destruct (mul_rounds _ mc ec VA VC NA FA) as (X & RX & X0 & EX).
      destruct (mul_rounds _ mc ec VB VC NB FB) as (Y & RY & Y0 & EY).
      destruct (rounds_rank _ _ RX) as (NX & _ & _).
      destruct (rounds_rank _ _ RY) as (NY & _ & _).
      split; [exact NX |]. split; [exact NY |].
      apply (rounds_mono _ _ X Y); try assumption.
      destruct (valid_finite false mc ec VC) as (_ & Hec & _).
      assert (0 < 2 ^ 1074) by (apply pow2_pos; lia).
      assert (0 < 2 ^ (ec + 1074)) by (apply pow2_pos; lia).
      rewrite RA, RB in Hab.
      set (Q := Zpos mc * 2 ^ (ec + 1074)) in *.
      assert (HQ : 0 <= Q) by (unfold Q; nia).
      assert (H1 : mag (Prim2SF a) * Q <= mag (Prim2SF b) * Q)
        by (apply Z.mul_le_mono_nonneg_r; assumption).
      rewrite <- EX, <- EY in H1.
      apply Z.mul_le_mono_pos_r in H1; assumption.
Qed.

(** Adding to a non-negative double is monotone on non-negative doubles. *)
Lemma add_mono_r (c a b : float) :
  PrimFloat.leb 0 c = true ->
  PrimFloat.leb 0 a = true ->
  PrimFloat.leb a b = true ->
  PrimFloat.leb (c + a) (c + b) = true.
Proof.
  intros Hc Ha Hab.
  pose proof (nn_of_leb c Hc) as NC. pose proof (nn_of_leb a Ha) as NA.
  assert (Hb : PrimFloat.leb 0 b = true).
  { apply leb_rank in Ha. apply leb_rank in Hab. apply leb_rank.
    destruct Ha as (N0 & _ & Ha). destruct Hab as (_ & Nb & Hab).
    split; [exact N0 |]. split; [exact Nb | lia]. }
  pose proof (nn_of_leb b Hb) as NB.
  apply leb_rank in Hab. destruct Hab as (_ & _ & Hab).
  pose proof (Prim2SF_valid a) as VA. pose proof (Prim2SF_valid b) as VB.
  pose proof (Prim2SF_valid c) as VC.
  pose proof (Prim2SF_valid (c + a)) as VCA.
  pose proof (Prim2SF_valid (c + b)) as VCB.
  apply leb_rank. unfold notnan, frank in *.
  rewrite !add_spec in *. unfold SF64add in *.
  pose proof top64_pos as Ht.
  assert (Hinf_l : forall f, nn f -> SFadd prec emax (S754_infinity false) f =
                                     S754_infinity false).
  { intros f Hf. destruct f as [s | [|] | | [|] m e]; try contradiction; reflexivity. }
  assert (Hinf_r : forall f, nn f -> SFadd prec emax f (S754_infinity false) =
                                     S754_infinity false).
  { intros f Hf. destruct f as [s | [|] | | [|] m e]; try contradiction; reflexivity. }
  destruct (nn_cases _ NC) as [EC | [FC RC]].
  - rewrite EC, !Hinf_l by assumption.
    split; [discriminate |]. split; [discriminate | lia].
  - destruct (nn_cases _ NB) as [EB | [FB RB]].
    + rewrite EB, Hinf_r by assumption.
      assert (N : SFadd prec emax (Prim2SF c) (Prim2SF a) <> S754_nan).
      { destruct (nn_cases _ NA) as [EA | [FA RA]].
        - rewrite EA, Hinf_r by assumption. discriminate.
        - apply (roundsZ_not_nan _ _ (SFadd_sem _ _ VC VA FC FA)). }
      split; [exact N |]. split; [discriminate |].
      pose proof (rank_bounds _ VCA). cbn [rank mag]. lia.
    + destruct (nn_cases _ NA) as [EA | [FA RA]].
      * exfalso. rewrite EA in Hab. cbn [rank mag] in Hab.
        pose proof (fz_rank_lt _ VB FB). lia.
      * pose proof (SFadd_sem _ _ VC VA FC FA) as R1.
        pose proof (SFadd_sem _ _ VC VB FC FB) as R2.
        split; [exact (roundsZ_not_nan _ _ R1) |].
        split; [exact (roundsZ_not_nan _ _ R2) |].
        apply (roundsZ_mono _ _ _ _ VCA VCB R1 R2). lia.
Qed.

(** Subtracting from a finite double is antitone on non-negative doubles. *)
Lemma sub_anti_r (c a b : float) :
  fz (Prim2SF c) ->
  PrimFloat.leb 0 a = true ->
  PrimFloat.leb a b = true ->
  PrimFloat.leb (c - b) (c - a) = true.
Proof.
  intros FC Ha Hab.
  pose proof (nn_of_leb a Ha) as NA.
  assert (Hb : PrimFloat.leb 0 b = true).
  { apply leb_rank in Ha. apply leb_rank in Hab. apply leb_rank.
    destruct Ha as (N0 & _ & Ha). destruct Hab as (_ & Nb & Hab).
    split; [exact N0 |]. split; [exact Nb | lia]. }
  pose proof (nn_of_leb b Hb) as NB.
  apply leb_rank in Hab. destruct Hab as (_ & _ & Hab).
  pose proof (Prim2SF_valid a) as VA. pose proof (Prim2SF_valid b) as VB.
  pose proof (Prim2SF_valid c) as VC.
  pose proof (Prim2SF_valid (c - a)) as VCA.
  pose proof (Prim2SF_valid (c - b)) as VCB.
  apply leb_rank. unfold notnan, frank in *.
  rewrite !sub_spec in *. unfold SF64sub in *.
  pose proof top64_pos as Ht.
  assert (Hinf : forall f, fz f -> SFsub prec emax f (S754_infinity false) =
                                   S754_infinity true).
  { intros f Hf. destruct f as [s | s | | s m e]; try contradiction; reflexivity. }
  destruct (nn_cases _ NB) as [EB | [FB RB]].
  - rewrite EB, Hinf by assumption.
    assert (N : SFsub prec emax (Prim2SF c) (Prim2SF a) <> S754_nan).
    { destruct (nn_cases _ NA) as [EA | [FA RA]].
      - rewrite EA, Hinf by assumption. discriminate.
      - apply (roundsZ_not_nan _ _ (SFsub_sem _ _ VC VA FC FA)). }
    split; [discriminate |]. split; [exact N |].
    pose proof (rank_bounds _ VCA). cbn [rank mag]. lia.
  - destruct (nn_cases _ NA) as [EA | [FA RA]].
    + exfalso. rewrite EA in Hab. cbn [rank mag] in Hab.
      pose proof (fz_rank_lt _ VB FB). lia.
    + pose proof (SFsub_sem _ _ VC VA FC FA) as R1.
      pose proof (SFsub_sem _ _ VC VB FC FB) as R2.
      split; [exact (roundsZ_not_nan _ _ R2) |].
      split; [exact (roundsZ_not_nan _ _ R1) |].
      apply (roundsZ_mono _ _ _ _ VCB VCA R2 R1). lia.
Qed.

(** ** Order and [Math.max] *)

Lemma leb_trans (x y z : float) :
  PrimFloat.leb x y = true -> PrimFloat.leb y z = true -> PrimFloat.leb x z = true.
Proof.
  intros H1 H2. apply leb_rank in H1. apply leb_rank in H2. apply leb_rank.
  destruct H1 as (Nx & _ & H1). destruct H2 as (_ & Nz & H2).
  split; [exact Nx |]. split; [exact Nz | lia].
Qed.

Lemma ltb_leb (x y : float) :
  PrimFloat.ltb x y = true -> PrimFloat.leb x y = true.
Proof.
  intros H. apply ltb_rank in H. apply leb_rank.
  destruct H as (Nx & Ny & H). split; [exact Nx |]. split; [exact Ny | lia].
Qed.

Lemma leb_refl (x : float) : notnan x -> PrimFloat.leb x x = true.
Proof. intros N. apply leb_rank. split; [exact N |]. split; [exact N | lia]. Qed.

Lemma is_nan_false (x : float) : notnan x -> PrimFloat.is_nan x = false.
Proof.
  intros N. unfold PrimFloat.is_nan. rewrite eqb_spec. unfold SFeqb.
  rewrite (compare_rank x x N N), Z.compare_refl. reflexivity.
Qed.

(** [Math.max] on two numbers is the larger of them. *)
Lemma float_max_rank (a b : float) :
  notnan a -> notnan b ->
  notnan (float_max a b) /\ frank (float_max a b) = Z.max (frank a) (frank b).
Proof.
  intros Na Nb. unfold float_max.
  rewrite (is_nan_false a Na), (is_nan_false b Nb). cbn [orb].
  destruct (PrimFloat.ltb a b) eqn:E1.
  - apply ltb_rank in E1. destruct E1 as (_ & _ & E1). split; [exact Nb | lia].
  - assert (H1 : frank b <= frank a).
    { destruct (Z_le_gt_dec (frank b) (frank a)) as [H | H]; [exact H |].
      assert (X : PrimFloat.ltb a b = true)
        by (apply ltb_rank; split; [exact Na |]; split; [exact Nb | lia]).
      congruence. }
    destruct (PrimFloat.ltb b a) eqn:E2.
    + split; [exact Na | lia].
    + assert (H2 : frank a <= frank b).
      { destruct (Z_le_gt_dec (frank a) (frank b)) as [H | H]; [exact H |].
        assert (X : PrimFloat.ltb b a = true)
          by (apply ltb_rank; split; [exact Nb |]; split; [exact Na | lia]).
        congruence. }
      destruct (PrimFloat.get_sign a); (split; [assumption | lia]).
Qed.

(** Adding a non-negative double does not make a non-negative double
    smaller. *)
Lemma add_nonneg_r (c t : float) :
  PrimFloat.leb 0 c = true ->
  PrimFloat.leb 0 t = true ->
  PrimFloat.leb c (c + t) = true.
Proof.
  intros Hc Ht.
  pose proof (nn_of_leb c Hc) as NC. pose proof (nn_of_leb t Ht) as NT.
  pose proof (Prim2SF_valid c) as VC. pose proof (Prim2SF_valid t) as VT.
  pose proof (Prim2SF_valid (c + t)) as VCT.
  apply leb_rank in Hc. destruct Hc as (_ & Nc & Hc).
  apply leb_rank in Ht. destruct Ht as (_ & _ & Ht).
  change (frank 0) with 0 in Hc, Ht.
  apply leb_rank. split; [exact Nc |]. unfold notnan, frank in *.
  rewrite add_spec in *. unfold SF64add in *.
  pose proof top64_pos as Htop.
  destruct (nn_cases _ NC) as [EC | [FC RC]].
  - rewrite EC. destruct (Prim2SF t) as [s | [|] | | [|] m e]; try contradiction;
      cbn [SFadd]; (split; [discriminate | cbn [rank mag]; lia]).
  - destruct (nn_cases _ NT) as [ET | [FT' RT]].
    + rewrite ET.
      assert (E : SFadd prec emax (Prim2SF c) (S754_infinity false) = S754_infinity false).
      { destruct (Prim2SF c) as [s | s | | s m e]; try contradiction; reflexivity. }
      rewrite E. split; [discriminate |].
      pose proof (rank_bounds _ VC). cbn [rank mag]. lia.
    + pose proof (SFadd_sem _ _ VC VT FC FT') as R.
      split; [exact (roundsZ_not_nan _ _ R) |].
      apply (roundsZ_mono _ _ _ _ VC VCT (roundsZ_exact _ VC FC) R). lia.
Qed.

(** [Math.max] returns its first argument when the second is smaller. *)
Lemma float_max_left (a b : float) :
  notnan a -> notnan b -> frank b < frank a -> float_max a b = a.
Proof.
  intros Na Nb H. unfold float_max.
  rewrite (is_nan_false a Na), (is_nan_false b Nb). cbn [orb].
  destruct (PrimFloat.ltb a b) eqn:E1.
  - apply ltb_rank in E1. lia.
  - assert (E2 : PrimFloat.ltb b a = true)
      by (apply ltb_rank; split; [exact Nb |]; split; [exact Na | exact H]).
    rewrite E2. reflexivity.
Qed.

End Binary64.

(** ** Facts that hold for any arithmetic *)

Section GenericFacts.

Context {num : Type} {ops : Number num}.
Local Open Scope num_scope.

Lemma calculateWeightedSegments_person (l : list (Person num)) :
  map (@person num) (calculateWeightedSegments l) = l.
Proof.
  unfold calculateWeightedSegments. rewrite map_map. simpl.
  induction l as [| p l IH]; simpl; [reflexivity | now rewrite IH].
Qed.

Lemma layoutFrom_wperson (totalWeight : num) (ws : list (WeightedPerson num)) :
  forall currentAngle,
    map (@wperson num) (layoutFrom totalWeight currentAngle ws) = ws.
Proof.
  induction ws as [| w ws IH]; intros c; simpl; [reflexivity | now rewrite IH].
Qed.

Lemma getSegmentAngles_wperson (l : list (Person num)) :
  map (@wperson num) (getSegmentAngles l) = calculateWeightedSegments l.
Proof. unfold getSegmentAngles. apply layoutFrom_wperson. Qed.

Lemma getSegmentAngles_person (l : list (Person num)) :
  map (fun s => person (wperson s)) (getSegmentAngles l) = l.
Proof.
  rewrite <- (map_map (@wperson num) (@person num)).
  rewrite getSegmentAngles_wperson. apply calculateWeightedSegments_person.
Qed.

Lemma getSegmentAngles_length (l : list (Person num)) :
  List.length (getSegmentAngles l) = List.length l.
Proof.
  rewrite <- (getSegmentAngles_person l) at 2. now rewrite length_map.
Qed.


Lemma layoutFrom_head (totalWeight currentAngle : num)
      (ws : list (WeightedPerson num)) (s : Segment num) :
  nth_error (layoutFrom totalWeight currentAngle ws) 0 = Some s ->
  startAngle s = currentAngle.
Proof.
  destruct ws as [| w ws]; simpl; [discriminate |].
  intros H. injection H as <-. reflexivity.
Qed.

Lemma layoutFrom_shape (totalWeight : num) (ws : list (WeightedPerson num)) :
  forall currentAngle s,
    In s (layoutFrom totalWeight currentAngle ws) ->
    segmentAngle s = weight (wperson s) / totalWeight * lit 360 /\
    endAngle s = startAngle s + segmentAngle s.
Proof.
  induction ws as [| w ws IH]; intros c s Hin; simpl in Hin.
  - contradiction.
  - destruct Hin as [<- | Hin]; [simpl; split; reflexivity |].
    exact (IH _ _ Hin).
Qed.

(** The loop of [spinWheel] returns the first segment passing the test, and
    the initial value of [selectedWinner] when there is none. *)
Lemma scanSegments_first (finalRotation : num) (selectedWinner : option (Segment num))
      (segments : list (Segment num)) :
  (exists before w after,
      segments = before ++ w :: after /\
      forallb (fun s => negb (atTop finalRotation s)) before = true /\
      atTop finalRotation w = true /\
      scanSegments finalRotation selectedWinner segments = Some w)
  \/
  (forallb (fun s => negb (atTop finalRotation s)) segments = true /\
   scanSegments finalRotation selectedWinner segments = selectedWinner).
Proof.
  induction segments as [| s segments IH]; simpl.
  - right. split; reflexivity.
  - destruct (atTop finalRotation s) eqn:E.
    + left. exists [], s, segments. simpl. repeat split; assumption.
    + destruct IH as [(before & w & after & -> & Hb & Hw & Hs) | [Hall Hs]].
      * left. exists (s :: before), w, after. simpl. rewrite E.
        repeat split; assumption.
      * right. simpl. split; assumption.
Qed.

Lemma names_nonempty_length (l : list (Person num)) :
  l <> [] -> (List.length l =? 0)%nat = false.
Proof. destruct l; [congruence | reflexivity]. Qed.

Lemma spinWheel_spins (st : AppState num) (random : num) :
  names st <> [] ->
  spinWheel st random =
  {| names := names st;
     newName := newName st;
     isSpinning := true;
     winner := None;
     rotation := rotation st + totalRotation random;
     timers := timers st ++ [selectWinner (names st) (rotation st) random] |}.
Proof.
  intros H. unfold spinWheel. now rewrite (names_nonempty_length H).
Qed.

Lemma first_segment_exists (l : list (Person num)) :
  l <> [] -> exists s0, nth_error (getSegmentAngles l) 0 = Some s0.
Proof.
  intros H. destruct (getSegmentAngles l) as [| s0 ss] eqn:E.
  - apply (f_equal (@List.length _)) in E.
    rewrite getSegmentAngles_length in E. destruct l; [congruence | discriminate].
  - exists s0. reflexivity.
Qed.

Lemma incrementWins_nth (w : Segment num) (l : list (Person num)) (i : nat) (p : Person num) :
  nth_error l i = Some p ->
  nth_error (incrementWins w l) i =
  Some (if String.eqb (id p) (segId w)
        then {| id := id p; name := name p; wins := wins p + lit 1 |}
        else p).
Proof.
  intros H. unfold incrementWins. rewrite nth_error_map, H. reflexivity.
Qed.

Lemma nodup_ids_nth (l : list (Person num)) (i k : nat) (p q : Person num) :
  NoDup (map (@id num) l) ->
  nth_error l i = Some p -> nth_error l k = Some q -> id p = id q -> i = k.
Proof.
  intros Hnd Hi Hk Hid.
  assert (Hi' : nth_error (map (@id num) l) i = Some (id p))
    by (rewrite nth_error_map, Hi; reflexivity).
  assert (Hk' : nth_error (map (@id num) l) k = Some (id q))
    by (rewrite nth_error_map, Hk; reflexivity).
  rewrite NoDup_nth_error in Hnd. apply Hnd.
  - apply nth_error_Some. rewrite Hi'. discriminate.
  - rewrite Hi', Hk', Hid. reflexivity.
Qed.

End GenericFacts.

(** ** Exact arithmetic on win counts *)

Section RationalWins.

Local Open Scope Q_scope.


End RationalWins.

(** * The layout of the wheel and the selection of the winner *)

Section LayoutAndSelection.

Context {num : Type} {ops : Number num}.
Local Open Scope num_scope.

(** The test of the loop of [spinWheel] is the containment of the pointer
    angle in the interval of the segment. *)
Lemma atTop_contains (p random : num) (s : Segment num) :
  atTop ((p + totalRotation random) mod lit 360) s =
  contains s (pointerAngleInWheelFrame p random).
Proof. reflexivity. Qed.

(** C1 (amended): on a non-empty roster, when some segment contains the
    pointer angle [(360 - ((p + 5 * 360 + s) % 360)) % 360] as the code
    evaluates it, the winner recorded by the spin is the first segment, in
    order, whose interval [startAngle, endAngle) contains that angle. *)
Theorem spin_selects_first_containing_segment (st : AppState num) (random : num) :
  names st <> [] ->
  let angle := pointerAngleInWheelFrame (rotation st) random in
  (exists s, In s (getSegmentAngles (names st)) /\ contains s angle = true) ->
  exists before w after,
    getSegmentAngles (names st) = before ++ w :: after /\
    Forall (fun s => contains s angle = false) before /\
    contains w angle = true /\
    selectWinner (names st) (rotation st) random = Some w /\
    timers (spinWheel st random) = timers st ++ [Some w].
Proof.
  intros Hne angle (s0 & Hin0 & Hs0).
  set (finalRotation := (rotation st + totalRotation random) mod lit 360).
  assert (Hsel : selectWinner (names st) (rotation st) random =
                 scanSegments finalRotation
                              (nth_error (getSegmentAngles (names st)) 0)
                              (getSegmentAngles (names st))) by reflexivity.
  destruct (scanSegments_first finalRotation
              (nth_error (getSegmentAngles (names st)) 0)
              (getSegmentAngles (names st)))
    as [(before & w & after & Esplit & Hbefore & Hw & Hscan) | [Hnone _]].
  - exists before, w, after.
    split; [exact Esplit |].
    split.
    { apply Forall_forall. intros s Hs.
      rewrite forallb_forall in Hbefore. specialize (Hbefore s Hs).
      apply negb_true_iff in Hbefore. exact Hbefore. }
    split; [exact Hw |].
    split; [rewrite Hsel; exact Hscan |].
    rewrite (spinWheel_spins st random Hne). simpl.
    rewrite Hsel, Hscan. reflexivity.
  - exfalso. rewrite forallb_forall in Hnone. specialize (Hnone s0 Hin0).
    apply negb_true_iff in Hnone.
    unfold angle in Hs0. rewrite <- atTop_contains in Hs0.
    fold finalRotation in Hs0. congruence.
Qed.




(** Only a spin changes the rotation. *)
Lemma rotation_changes_only_on_spin (st0 : AppState num) (ev : Event num) :
  (forall r, ev <> ClickSpin r) -> rotation (step st0 ev) = rotation st0.
Proof.
  intros Hev. destruct ev as [text | now | now | row | row | | r |]; simpl.
  - destruct (isSpinning st0); reflexivity.
  - destruct (isSpinning st0); [reflexivity |]. unfold addName.
    destruct (_ && _); reflexivity.
  - destruct (_ || _); [reflexivity |]. unfold addName.
    destruct (_ && _); reflexivity.
  - destruct (nth_error (names st0) row); [| reflexivity].
    destruct (isSpinning st0); reflexivity.
  - destruct (nth_error (names st0) row); [| reflexivity].
    destruct (_ || _); reflexivity.
  - destruct (isSpinning st0); reflexivity.
  - exfalso. exact (Hev r eq_refl).
  - destruct (timers st0) as [| [w |] rest]; reflexivity.
Qed.

End LayoutAndSelection.

(** * Weights and rotations in binary64 *)

Section WeightsAndRotations.

Local Open Scope num_scope.

Lemma leb_0_of_leb (a b : float) :
  PrimFloat.leb 0 a = true -> PrimFloat.leb a b = true -> PrimFloat.leb 0 b = true.
Proof. apply leb_trans. Qed.

(** The weight of a number of wins and its order. *)
Lemma weight_order (w1 w2 : float) :
  PrimFloat.leb 0 w1 = true ->
  PrimFloat.leb w1 w2 = true ->
  PrimFloat.leb (max (dec 1 10) (lit 1 - w2 * dec 2 10))
                (max (dec 1 10) (lit 1 - w1 * dec 2 10)) = true /\
  PrimFloat.leb (dec 1 10) (max (dec 1 10) (lit 1 - w1 * dec 2 10)) = true.
Proof.
  intros H0 H12.
  cbn [max dec lit sub mul float_Number].
  set (tenth := (float_of_Z 1 / float_of_Z 10)%float).
  set (fifth := (float_of_Z 2 / float_of_Z 10)%float).
  set (one := float_of_Z 1).
  assert (Hm : PrimFloat.leb (w1 * fifth) (w2 * fifth) = true).
  { eapply mul_mono_r; [vm_compute; reflexivity | exact H0 | exact H12]. }
  assert (Hz : PrimFloat.leb 0 (w1 * fifth) = true).
  { assert (H : PrimFloat.leb (0 * fifth) (w1 * fifth) = true).
    { eapply mul_mono_r; [vm_compute; reflexivity | reflexivity | exact H0]. }
    replace (0 * fifth)%float with 0%float in H by (vm_compute; reflexivity).
    exact H. }
  assert (Hs : PrimFloat.leb (one - w2 * fifth) (one - w1 * fifth) = true).
  { apply sub_anti_r; [vm_compute; exact I | exact Hz | exact Hm]. }
  apply leb_rank in Hs. destruct Hs as (N2 & N1 & Hs).
  assert (Nt : notnan tenth) by (vm_compute; discriminate).
  destruct (float_max_rank tenth (one - w1 * fifth) Nt N1) as [M1 R1].
  destruct (float_max_rank tenth (one - w2 * fifth) Nt N2) as [M2 R2].
  split; apply leb_rank.
  - split; [exact M2 |]. split; [exact M1 |]. rewrite R1, R2. lia.
  - split; [exact Nt |]. split; [exact M1 |]. rewrite R1. lia.
Qed.

(** C4: in binary64, the weight given to every entrant of a roster is
    [max(0.1, 1 - wins * 0.2)]; for entrants with [0 <= wins1 <= wins2] the
    weight of the second is not above the weight of the first, and neither
    weight is below 0.1. *)
Theorem weight_formula_antitone_floored_binary64
        (l1 l2 : list (Person float)) (i j : nat) (p1 p2 : Person float) :
  nth_error l1 i = Some p1 ->
  nth_error l2 j = Some p2 ->
  PrimFloat.leb 0 (wins p1) = true ->
  PrimFloat.leb (wins p1) (wins p2) = true ->
  exists wp1 wp2,
    nth_error (calculateWeightedSegments l1) i = Some wp1 /\
    nth_error (calculateWeightedSegments l2) j = Some wp2 /\
    person wp1 = p1 /\
    person wp2 = p2 /\
    weight wp1 = max (dec 1 10) (lit 1 - wins p1 * dec 2 10) /\
    weight wp2 = max (dec 1 10) (lit 1 - wins p2 * dec 2 10) /\
    PrimFloat.leb (weight wp2) (weight wp1) = true /\
    PrimFloat.leb (dec 1 10) (weight wp1) = true /\
    PrimFloat.leb (dec 1 10) (weight wp2) = true.
Proof.
  intros H1 H2 H0 H12.
  assert (H02 : PrimFloat.leb 0 (wins p2) = true) by (eapply leb_trans; eassumption).
  assert (N2 : PrimFloat.leb (wins p2) (wins p2) = true).
  { apply leb_refl. apply leb_rank in H12. tauto. }
  destruct (@weight_order (wins p1) (wins p2) H0 H12) as [Hanti Hfloor1].
  destruct (@weight_order (wins p2) (wins p2) H02 N2) as [_ Hfloor2].
  eexists _, _.
  split; [unfold calculateWeightedSegments; cbv zeta; rewrite nth_error_map, H1; reflexivity |].
  split; [unfold calculateWeightedSegments; cbv zeta; rewrite nth_error_map, H2; reflexivity |].
  cbn [person weight].
  repeat split; assumption.
Qed.

(** The angle added by a spin. *)
Lemma totalRotation_bounds (random : float) :
  validSample random ->
  PrimFloat.leb 1800 (totalRotation random) = true /\
  PrimFloat.leb (totalRotation random) 2160 = true.
Proof.
  intros [H0 H1]. apply ltb_leb in H1.
  unfold totalRotation. cbn [add mul lit float_Number].
  replace (float_of_Z 360 * float_of_Z 5)%float with 1800%float
    by (vm_compute; reflexivity).
  replace (float_of_Z 360) with 360%float by (vm_compute; reflexivity).
  assert (Ha : PrimFloat.leb 0 (random * 360) = true).
  { assert (H : PrimFloat.leb (0 * 360) (random * 360) = true).
    { eapply mul_mono_r; [vm_compute; reflexivity | reflexivity | exact H0]. }
    replace (0 * 360)%float with 0%float in H by (vm_compute; reflexivity).
    exact H. }
  assert (Hb : PrimFloat.leb (random * 360) 360 = true).
  { assert (H : PrimFloat.leb (random * 360) (1 * 360) = true).
    { eapply mul_mono_r; [vm_compute; reflexivity | exact H0 | exact H1]. }
    replace (1 * 360)%float with 360%float in H by (vm_compute; reflexivity).
    exact H. }
  split.
  - assert (H : PrimFloat.leb (1800 + 0) (1800 + random * 360) = true).
    { apply add_mono_r; [reflexivity | reflexivity | exact Ha]. }
    replace (1800 + 0)%float with 1800%float in H by (vm_compute; reflexivity).
    exact H.
  - assert (H : PrimFloat.leb (1800 + random * 360) (1800 + 360) = true).
    { apply add_mono_r; [reflexivity | exact Ha | exact Hb]. }
    replace (1800 + 360)%float with 2160%float in H by (vm_compute; reflexivity).
    exact H.
Qed.

Lemma step_rotation_grows (st0 : AppState float) (ev : Event float) :
  PrimFloat.leb 0 (rotation st0) = true ->
  validEvent ev ->
  PrimFloat.leb (rotation st0) (rotation (step st0 ev)) = true.
Proof.
  intros H0 Hev.
  assert (Hrefl : PrimFloat.leb (rotation st0) (rotation st0) = true).
  { apply leb_refl. apply leb_rank in H0. tauto. }
  destruct ev as [text | now | now | row | row | | r |];
    try (rewrite rotation_changes_only_on_spin by discriminate; exact Hrefl).
  cbn [step]. destruct (_ || _); [exact Hrefl |].
  unfold spinWheel. destruct (_ =? _)%nat; [exact Hrefl |].
  cbn [rotation add float_Number].
  destruct (@totalRotation_bounds r Hev) as [Hlo _].
  apply add_nonneg_r; [exact H0 |].
  eapply leb_trans; [| exact Hlo]. reflexivity.
Qed.

(** C6 (amended): in binary64, a spin on a non-empty roster, from a
    cumulative rotation that is not negative and with [Math.random()] in
    [0, 1), adds to the rotation the double [360 * 5 + random * 360], which
    is at least 1800 and at most 2160; the new rotation is not below the
    previous one.  No other event changes the rotation, so along any run of
    the page it is never reset and never goes down. *)
Theorem spin_advances_rotation_binary64 (st : AppState float) (random : float) :
  names st <> [] ->
  validSample random ->
  PrimFloat.leb 0 (rotation st) = true ->
  rotation (spinWheel st random) = rotation st + totalRotation random /\
  PrimFloat.leb 1800 (totalRotation random) = true /\
  PrimFloat.leb (totalRotation random) 2160 = true /\
  PrimFloat.leb (rotation st) (rotation (spinWheel st random)) = true /\
  (forall (st0 : AppState float) ev,
      (forall r, ev <> ClickSpin r) -> rotation (step st0 ev) = rotation st0) /\
  (forall (st0 : AppState float) evs,
      PrimFloat.leb 0 (rotation st0) = true ->
      Forall validEvent evs ->
      PrimFloat.leb (rotation st0) (rotation (run st0 evs)) = true).
Proof.
  intros Hne Hr H0.
  destruct (@totalRotation_bounds random Hr) as [Hlo Hhi].
  assert (Hnew : rotation (spinWheel st random) = rotation st + totalRotation random).
  { rewrite (spinWheel_spins st random Hne). reflexivity. }
  split; [exact Hnew |].
  split; [exact Hlo |].
  split; [exact Hhi |].
  split.
  { rewrite Hnew. cbn [add float_Number]. apply add_nonneg_r; [exact H0 |].
    eapply leb_trans; [| exact Hlo]. reflexivity. }
  split; [intros st0 ev; apply rotation_changes_only_on_spin |].
  intros st0 evs. revert st0.
  induction evs as [| ev evs IH]; intros st0 Hs0 Hall.
  - apply leb_refl. apply leb_rank in Hs0. tauto.
  - inversion Hall as [| ? ? Hev Hrest]; subst.
    pose proof (@step_rotation_grows st0 ev Hs0 Hev) as Hstep.
    change (run st0 (ev :: evs)) with (run (step st0 ev) evs).
    eapply leb_trans; [exact Hstep |].
    apply IH; [| exact Hrest].
    eapply leb_trans; eassumption.
Qed.

End WeightsAndRotations.

(** ** Guards, fallback and commit *)

Section SpinProtocol.

Context {num : Type} {ops : Number num}.
Local Open Scope num_scope.

(** C5: the new rotation and the winner recorded by a spin depend only on
    the roster, the previous rotation and the sample: two pages agreeing on
    these get the same rotation and the same winner, whatever else differs
    between them. *)
Theorem spin_is_deterministic (st1 st2 : AppState num) (random : num) :
  names st1 = names st2 ->
  rotation st1 = rotation st2 ->
  rotation (spinWheel st1 random) = rotation (spinWheel st2 random) /\
  selectWinner (names st1) (rotation st1) random =
  selectWinner (names st2) (rotation st2) random /\
  (names st1 <> [] ->
   exists w,
     timers (spinWheel st1 random) = timers st1 ++ [w] /\
     timers (spinWheel st2 random) = timers st2 ++ [w] /\
     names (commit (spinWheel st1 random) w) = names (commit (spinWheel st2 random) w)).
Proof.
  intros Hn Hr. split; [| split].
  - unfold spinWheel. rewrite Hn.
    destruct (List.length (names st2) =? 0)%nat; simpl; [exact Hr | now rewrite Hr].
  - now rewrite Hn, Hr.
  - intros Hne.
    assert (Hne2 : names st2 <> []) by (rewrite <- Hn; exact Hne).
    exists (selectWinner (names st1) (rotation st1) random).
    rewrite (spinWheel_spins st1 random Hne), (spinWheel_spins st2 random Hne2).
    simpl. rewrite Hn, Hr. repeat split.
    destruct (selectWinner (names st2) (rotation st2) random); reflexivity.
Qed.

(** C7: a spin requested on an empty roster changes nothing: the state after
    [spinWheel], and after a click on the spin button, is the state before,
    so the rotation is the same, no winner is set and no commit is
    scheduled. *)
Theorem spin_on_empty_roster_is_noop (st : AppState num) (random : num) :
  names st = [] ->
  spinWheel st random = st /\
  step st (ClickSpin random) = st /\
  rotation (spinWheel st random) = rotation st /\
  winner (spinWheel st random) = winner st /\
  timers (spinWheel st random) = timers st.
Proof.
  intros Hn.
  assert (E : spinWheel st random = st) by (unfold spinWheel; now rewrite Hn).
  repeat split; try (rewrite E; reflexivity).
  simpl. now rewrite Hn.
Qed.

(** C9: while a spin is in flight the spin button is disabled, so a spin
    requested then leaves the whole state as it is; in particular the second
    of two requests in a row does nothing. *)
Theorem spin_while_spinning_is_ignored (st : AppState num) (random : num) :
  isSpinning st = true ->
  step st (ClickSpin random) = st /\
  (forall st0 r1 r2,
      names st0 <> [] ->
      isSpinning st0 = false ->
      isSpinning (step st0 (ClickSpin r1)) = true /\
      step (step st0 (ClickSpin r1)) (ClickSpin r2) = step st0 (ClickSpin r1)).
Proof.
  intros Hs.
  assert (Hguard : forall (s : AppState num) r,
             isSpinning s = true -> step s (ClickSpin r) = s).
  { intros s r H. simpl. rewrite H, orb_true_r. reflexivity. }
  split; [exact (Hguard st random Hs) |].
  intros st0 r1 r2 Hne Hidle.
  assert (Hnow : isSpinning (step st0 (ClickSpin r1)) = true).
  { simpl. rewrite Hidle, (names_nonempty_length Hne). simpl.
    rewrite (spinWheel_spins st0 r1 Hne). reflexivity. }
  split; [exact Hnow | exact (Hguard _ r2 Hnow)].
Qed.

(** C10 (amended): when the timer of a spin expires, the roster keeps its
    length and the id and name of every row; a row whose id is not the
    winner's is left as it is and every row with the winner's id has its wins
    increased by exactly 1.  When ids are unique, every row other than the
    winner's is unchanged. *)
Theorem commit_changes_only_winner_wins
        (st : AppState num) (w : Segment num) (rest : list (option (Segment num))) :
  timers st = Some w :: rest ->
  let st' := step st Timeout in
  List.length (names st') = List.length (names st) /\
  map (@id num) (names st') = map (@id num) (names st) /\
  map (@name num) (names st') = map (@name num) (names st) /\
  (forall i p,
      nth_error (names st) i = Some p ->
      exists p',
        nth_error (names st') i = Some p' /\
        id p' = id p /\
        name p' = name p /\
        (id p = segId w -> wins p' = wins p + lit 1) /\
        (id p <> segId w -> p' = p)) /\
  (NoDup (map (@id num) (names st)) ->
   forall k pw,
     nth_error (names st) k = Some pw ->
     id pw = segId w ->
     forall i, i <> k -> nth_error (names st') i = nth_error (names st) i).
Proof.
  intros Ht st'.
  assert (En : names st' = incrementWins w (names st)).
  { unfold st'. simpl. rewrite Ht. reflexivity. }
  rewrite En.
  assert (Hrow : forall p : Person num,
             id (if String.eqb (id p) (segId w)
                 then {| id := id p; name := name p; wins := wins p + lit 1 |}
                 else p) = id p /\
             name (if String.eqb (id p) (segId w)
                   then {| id := id p; name := name p; wins := wins p + lit 1 |}
                   else p) = name p).
  { intros p. destruct (String.eqb (id p) (segId w)); split; reflexivity. }
  split; [unfold incrementWins; apply length_map |].
  split.
  { unfold incrementWins. rewrite map_map. apply map_ext.
    intros p. apply (Hrow p). }
  split.
  { unfold incrementWins. rewrite map_map. apply map_ext.
    intros p. apply (Hrow p). }
  split.
  { intros i p Hp. rewrite (incrementWins_nth w _ _ Hp).
    eexists. split; [reflexivity |].
    destruct (String.eqb_spec (id p) (segId w)) as [E | E]; simpl.
    - split; [reflexivity |]. split; [reflexivity |].
      split; [reflexivity | congruence].
    - split; [reflexivity |]. split; [reflexivity |].
      split; [congruence | reflexivity]. }
  intros Hnd k pw Hk Hid i Hik.
  destruct (nth_error (names st) i) as [p |] eqn:Hp.
  - rewrite (incrementWins_nth w _ _ Hp).
    destruct (String.eqb_spec (id p) (segId w)) as [E | E]; [| reflexivity].
    exfalso. apply Hik.
    eapply nodup_ids_nth; [exact Hnd | exact Hp | exact Hk | congruence].
  - unfold incrementWins. rewrite nth_error_map, Hp. reflexivity.
Qed.

End SpinProtocol.

(** ** The theorems on concrete pages *)

(** C2 (the code at a failing input): in binary64, on the page showing
    [sevenEntrants] at rotation 0 and with [Math.random()] returning [2^-51],
    the tested angle equals the end of the last segment, so it lies in the
    sliver between the last wedge and 360; no segment passes the test, and
    the spin records the first entrant, not the last. *)
Lemma spin_does_not_fall_back_to_last_segment :
  let st := idle sevenEntrants in
  let segments := getSegmentAngles (names st) in
  let finalRotation := ((rotation st + totalRotation tinySample) mod lit 360)%num in
  ((lit 360 - finalRotation) mod lit 360)%num = 0x1.67ffffffffffcp+8%float /\
  forallb (fun s => negb (atTop finalRotation s)) segments = true /\
  exists before final chosen,
    segments = before ++ [final] /\
    endAngle final = 0x1.67ffffffffffcp+8%float /\
    timers (spinWheel st tinySample) = timers st ++ [Some chosen] /\
    segName chosen = "Ann"%string /\
    segName final = "Gus"%string /\
    chosen <> final.
Proof.
  intros st segments finalRotation.
  split; [vm_compute; reflexivity |].
  split; [vm_compute; reflexivity |].
  exists (firstn 6 segments), (nth 6 segments (nth 0 segments (nth 0 segments
            {| wperson := {| person := entrant "" "" 0; weight := 0%float |};
               startAngle := 0%float; endAngle := 0%float;
               segmentAngle := 0%float |}))),
         (nth 0 segments
            {| wperson := {| person := entrant "" "" 0; weight := 0%float |};
               startAngle := 0%float; endAngle := 0%float;
               segmentAngle := 0%float |}).
  split; [vm_compute; reflexivity |].
  split; [vm_compute; reflexivity |].
  split; [vm_compute; reflexivity |].
  split; [vm_compute; reflexivity |].
  split; [vm_compute; reflexivity |].
  intros H. apply (f_equal (@segName float)) in H. vm_compute in H. discriminate.
Qed.

Lemma spin_is_deterministic_witness :
  let st1 := idle (@twoEntrants Q _) in
  let st2 := {| names := twoEntrants;
                newName := "Carol";
                isSpinning := false;
                winner := Some "B"%string;
                rotation := 0%Q;
                timers := [] |} in
  let random := (200 / 360)%Q in
  (names st1 = names st2 /\ rotation st1 = rotation st2) /\
  rotation (spinWheel st1 random) = rotation (spinWheel st2 random) /\
  selectWinner (names st1) (rotation st1) random =
  selectWinner (names st2) (rotation st2) random.
Proof.
  intros st1 st2 random.
  assert (Hn : names st1 = names st2) by reflexivity.
  assert (Hr : rotation st1 = rotation st2) by reflexivity.
  split; [split; assumption |].
  destruct (spin_is_deterministic st1 st2 random Hn Hr) as (H1 & H2 & _).
  split; [exact H1 | exact H2].
Defined.

Lemma spin_on_empty_roster_is_noop_witness :
  let st := idle (@nil (Person Q)) in
  names st = [] /\
  spinWheel st (1 # 2) = st /\
  step st (ClickSpin (1 # 2)) = st.
Proof.
  intros st.
  assert (Hn : names st = []) by reflexivity.
  destruct (spin_on_empty_roster_is_noop st (1 # 2) Hn) as (H1 & H2 & _).
  split; [exact Hn |]. split; [exact H1 | exact H2].
Defined.

Lemma spin_while_spinning_is_ignored_witness :
  isSpinning awaitingCommit = true /\
  step awaitingCommit (ClickSpin (1 # 2)) = awaitingCommit.
Proof.
  assert (Hs : isSpinning awaitingCommit = true) by reflexivity.
  split; [exact Hs |].
  exact (proj1 (spin_while_spinning_is_ignored awaitingCommit (1 # 2) Hs)).
Defined.

Lemma commit_changes_only_winner_wins_witness :
  let st' := step awaitingCommit Timeout in
  timers awaitingCommit = [Some segmentA] /\
  map (fun p => (id p, name p, Qred (wins p))) (names st') =
  [("1"%string, "A"%string, 1%Q); ("2"%string, "B"%string, 0%Q)] /\
  List.length (names st') = List.length (names awaitingCommit) /\
  map (@id Q) (names st') = map (@id Q) (names awaitingCommit) /\
  map (@name Q) (names st') = map (@name Q) (names awaitingCommit).
Proof.
  intros st'.
  assert (Ht : timers awaitingCommit = Some segmentA :: []) by reflexivity.
  split; [exact Ht |].
  split; [vm_compute; reflexivity |].
  destruct (commit_changes_only_winner_wins awaitingCommit Ht)
    as (H1 & H2 & H3 & _).
  split; [exact H1 |]. split; [exact H2 | exact H3].
Defined.

(** ** Adding a name *)

(** A name equal, letter case aside, to a name of the roster is refused. *)
Lemma addName_rejects_same_letters (st : AppState Q) (now : N) (p : Person Q) :
  In p (names st) ->
  toLowerCase (name p) = toLowerCase (newName st) ->
  addName st now = st.
Proof.
  intros Hin Hsame. unfold addName.
  assert (E : existsb
                (fun person =>
                   String.eqb (toLowerCase (name person)) (toLowerCase (newName st)))
                (names st) = true).
  { apply existsb_exists. exists p. split; [exact Hin |].
    apply String.eqb_eq. exact Hsame. }
  rewrite E, andb_false_r. reflexivity.
Qed.

(** C8 (the code at a failing input): the roster holds "Alice" and the name
    field holds " Alice".  The test compares the field as typed, the entry
    stores it trimmed: the add goes through and the roster holds the name
    "Alice" twice. *)
Theorem addName_accepts_padded_duplicate :
  let st := step paddedDuplicate (ClickAdd 1700000000000) in
  trim (newName paddedDuplicate) = "Alice"%string /\
  map (@name Q) (names paddedDuplicate) = ["Alice"%string] /\
  map (@name Q) (names st) = ["Alice"%string; "Alice"%string] /\
  map (@id Q) (names st) = ["1"%string; "1700000000000"%string].
Proof. vm_compute. repeat split. Qed.

(** A scenario of the specification, in binary64. *)
Example two_entrants_sample_200_float :
  option_map (@segName float)
             (selectWinner twoEntrants 0%float (200 / 360)%float) = Some "A"%string /\
  map (fun s => (startAngle s, endAngle s)) (getSegmentAngles (@twoEntrants float _)) =
  [(0%float, 180%float); (180%float, 360%float)].
Proof. vm_compute. split; reflexivity. Qed.

(** The literals 0.1 and 0.2 are the doubles nearest to them. *)
Example float_literals :
  (lit 360 : float) = 360%float /\ (dec 1 10 : float) = 0x1.999999999999ap-4%float /\
  (dec 2 10 : float) = 0x1.999999999999ap-3%float /\ (lit 0 : float) = 0%float.
Proof. vm_compute. repeat split. Qed.

Example float_rem_examples :
  float_rem 2000 360 = 200%float /\ float_rem (-200) 360 = (-200)%float /\
  float_rem 5.5 2 = 1.5%float /\ float_rem 0x1.c200000000001p+10 360 = 0x1p-42%float.
Proof. vm_compute. repeat split. Qed.

(** ** The layout, the selection and the rotation on concrete pages *)

Lemma spin_selects_first_containing_segment_witness :
  let st := idle (@twoEntrants float _) in
  let random := (200 / 360)%float in
  let angle := pointerAngleInWheelFrame (rotation st) random in
  (names st <> [] /\
   exists s, In s (getSegmentAngles (names st)) /\ contains s angle = true) /\
  exists before w after,
    getSegmentAngles (names st) = before ++ w :: after /\
    Forall (fun s => contains s angle = false) before /\
    contains w angle = true /\
    selectWinner (names st) (rotation st) random = Some w /\
    timers (spinWheel st random) = timers st ++ [Some w].
Proof.
  intros st random angle.
  assert (Hne : names st <> []) by discriminate.
  assert (Hex : exists s, In s (getSegmentAngles (names st)) /\ contains s angle = true).
  { exists (nth 0 (getSegmentAngles (names st)) noSegment).
    split; [left; reflexivity | vm_compute; reflexivity]. }
  split; [split; assumption |].
  exact (spin_selects_first_containing_segment st random Hne Hex).
Defined.

(** C1 (as stated).  In binary64, on the page showing [sevenEntrants] at
    rotation 0 and with [Math.random()] returning [2^-51], no segment
    contains the pointer angle, and the spin records the first entrant, whose
    segment does not contain it.  Read in exact arithmetic instead, on the
    page showing [twoEntrants] at rotation 0 and with [Math.random()]
    returning [1/2 + 2^-52], the angle of the specification for the random
    angle [s = random * 360] lies in the first segment, and the spin records
    the second entrant. *)
Lemma spin_winner_need_not_contain_pointer_angle :
  (let st := idle sevenEntrants in
   let angle := pointerAngleInWheelFrame (rotation st) tinySample in
   angle = 0x1.67ffffffffffcp+8%float /\
   forallb (fun s => negb (contains s angle)) (getSegmentAngles (names st)) = true /\
   exists w,
     selectWinner (names st) (rotation st) tinySample = Some w /\
     segName w = "Ann"%string /\
     contains w angle = false) /\
  (let st := idle (@twoEntrants float _) in
   let s := (justOverHalf * 360)%float in
   let angle := exactPointerAngle (rotation st) s in
   PrimFloat.ltb s 360 = true /\
   exists a b,
     getSegmentAngles (names st) = [a; b] /\
     holds a angle = true /\
     holds b angle = false /\
     selectWinner (names st) (rotation st) justOverHalf = Some b /\
     segName b = "B"%string).
Proof.
  split.
  - intros st angle.
    split; [vm_compute; reflexivity |].
    split; [vm_compute; reflexivity |].
    exists (nth 0 (getSegmentAngles (names st)) noSegment).
    split; [vm_compute; reflexivity |].
    split; vm_compute; reflexivity.
  - intros st s angle.
    split; [vm_compute; reflexivity |].
    exists (nth 0 (getSegmentAngles (names st)) noSegment),
           (nth 1 (getSegmentAngles (names st)) noSegment).
    split; [vm_compute; reflexivity |].
    split; [vm_compute; reflexivity |].
    split; [vm_compute; reflexivity |].
    split; vm_compute; reflexivity.
Qed.



Lemma weight_formula_antitone_floored_binary64_witness :
  (nth_error sevenEntrants 1 = Some (entrant "2" "Bob" 0) /\
   nth_error sevenEntrants 2 = Some (entrant "3" "Cem" 4) /\
   PrimFloat.leb 0 0 = true /\
   PrimFloat.leb 0 4 = true) /\
  exists wp1 wp2,
    nth_error (calculateWeightedSegments sevenEntrants) 1 = Some wp1 /\
    nth_error (calculateWeightedSegments sevenEntrants) 2 = Some wp2 /\
    weight wp1 = 1%float /\
    weight wp2 = 0x1.9999999999998p-3%float /\
    PrimFloat.leb (weight wp2) (weight wp1) = true /\
    PrimFloat.leb 0x1.999999999999ap-4 (weight wp2) = true.
Proof.
  assert (H1 : nth_error sevenEntrants 1 = Some (entrant "2" "Bob" 0)) by reflexivity.
  assert (H2 : nth_error sevenEntrants 2 = Some (entrant "3" "Cem" 4)) by reflexivity.
  assert (H0 : PrimFloat.leb 0 (wins (entrant (ops := float_Number) "2" "Bob" 0)) = true)
    by (vm_compute; reflexivity).
  assert (H12 : PrimFloat.leb (wins (entrant (ops := float_Number) "2" "Bob" 0))
                              (wins (entrant (ops := float_Number) "3" "Cem" 4)) = true)
    by (vm_compute; reflexivity).
  split; [repeat split; reflexivity |].
  destruct (weight_formula_antitone_floored_binary64
              sevenEntrants sevenEntrants 1 2 H1 H2 H0 H12)
    as (wp1 & wp2 & E1 & E2 & _ & _ & W1 & W2 & Hanti & _ & Hfloor).
  exists wp1, wp2.
  split; [exact E1 |]. split; [exact E2 |].
  split; [rewrite W1; vm_compute; reflexivity |].
  split; [rewrite W2; vm_compute; reflexivity |].
  split; [exact Hanti |].
  exact Hfloor.
Defined.

Lemma spin_advances_rotation_binary64_witness :
  let st := idle (@twoEntrants float _) in
  let random := 0.5%float in
  (names st <> [] /\ validSample random /\ PrimFloat.leb 0 (rotation st) = true) /\
  rotation (spinWheel st random) = 1980%float /\
  PrimFloat.leb 1800 (totalRotation random) = true /\
  PrimFloat.leb (totalRotation random) 2160 = true /\
  PrimFloat.leb (rotation st) (rotation (spinWheel st random)) = true.
Proof.
  intros st random.
  assert (Hne : names st <> []) by discriminate.
  assert (Hr : validSample random) by (split; reflexivity).
  assert (H0 : PrimFloat.leb 0 (rotation st) = true) by reflexivity.
  split; [repeat split; assumption |].
  destruct (spin_advances_rotation_binary64 st Hne Hr H0)
    as (Hnew & Hlo & Hhi & Hup & _).
  split; [rewrite Hnew; vm_compute; reflexivity |].
  repeat split; assumption.
Defined.

(** C6 (as stated).  In binary64, with [Math.random()] returning the largest
    double below 1, the random angle is below 360 and the spin adds exactly
    2160 to a rotation of 0; and after a first spin has left the rotation at
    [1800.0000000000002], a spin with [Math.random()] returning 0 moves it to
    3600, less than 1800 further. *)
Lemma spin_can_add_2160_or_less_than_1800 :
  (let st := idle (@twoEntrants float _) in
   validSample justBelowOne /\
   PrimFloat.ltb (justBelowOne * 360) 360 = true /\
   rotation st = 0%float /\
   rotation (step st (ClickSpin justBelowOne)) = 2160%float /\
   (frank (rotation (step st (ClickSpin justBelowOne))) - frank (rotation st) =
    units 2160)%Z) /\
  (let st := run (idle (@twoEntrants float _)) [ClickSpin tinySample; Timeout] in
   validSample tinySample /\
   validSample 0 /\
   isSpinning st = false /\
   rotation st = 0x1.c200000000001p+10%float /\
   rotation (step st (ClickSpin 0%float)) = 3600%float /\
   (frank (rotation (step st (ClickSpin 0%float))) - frank (rotation st) <
    units 1800)%Z).
Proof.
  split.
  - intros st.
    split; [split; reflexivity |].
    repeat split; vm_compute; reflexivity.
  - intros st.
    split; [split; reflexivity |].
    split; [split; reflexivity |].
    repeat split; vm_compute; reflexivity.
Qed.

(** C10 (as stated).  On a roster holding two rows under one id, the commit
    of a spin won by the first row raises the wins of both rows: the second
    row, which is not the winner's, is changed. *)
Lemma commit_raises_every_row_with_winner_id :
  let st := step (idle sharedId) (ClickSpin 0%float) in
  let st' := step st Timeout in
  map (@name float) (names st) = ["Ann"%string; "Bob"%string] /\
  map (@wins float) (names st) = [0%float; 0%float] /\
  option_map (@segName float) (hd None (timers st)) = Some "Ann"%string /\
  winner st' = Some "Ann"%string /\
  map (@name float) (names st') = ["Ann"%string; "Bob"%string] /\
  map (@wins float) (names st') = [1%float; 1%float].
Proof.
  intros st st'. repeat split; vm_compute; reflexivity.
Qed.

(** * Further properties of the page *)

(** ** Guards and the spin cycle, for any arithmetic *)

Section PageProtocol.

Context {num : Type} {ops : Number num}.
Local Open Scope num_scope.

(** X1: while a spin is in flight every control of the page is disabled:
    whatever the user does, the state stays as it is until the timer
    expires. *)
Theorem spinning_page_ignores_user (st : AppState num) (ev : Event num) :
  isSpinning st = true ->
  ev <> Timeout ->
  step st ev = st.
Proof.
  intros Hs Hev.
  destruct ev as [text | now | now | row | row | | random |]; simpl;
    try rewrite Hs; try reflexivity.
  - destruct (nth_error (names st) row); reflexivity.
  - destruct (nth_error (names st) row); reflexivity.
  - now rewrite orb_true_r.
  - congruence.
Qed.

(** X2: the Add Name button and the Enter key do the same thing in every
    state: the test of the button's [disabled] attribute is made again by
    [addName]. *)
Theorem add_button_same_as_enter (st : AppState num) (now : N) :
  step st (ClickAdd now) = step st (PressEnter now).
Proof.
  simpl. destruct (isSpinning st); simpl; [reflexivity |].
  destruct (truthy (trim (newName st))) eqn:E; simpl; [reflexivity |].
  unfold addName. rewrite E. reflexivity.
Qed.

Lemma scanSegments_in (finalRotation : num) (selectedWinner w : Segment num)
      (segments : list (Segment num)) :
  scanSegments finalRotation (Some selectedWinner) segments = Some w ->
  w = selectedWinner \/ In w segments.
Proof.
  induction segments as [| s segments IH]; simpl; intros H.
  - left. congruence.
  - destruct (atTop finalRotation s).
    + right. left. congruence.
    + destruct (IH H) as [E | Hin]; [left; exact E | right; right; exact Hin].
Qed.

Lemma selectWinner_in (l : list (Person num)) (rot random : num) :
  l <> [] ->
  exists w,
    selectWinner l rot random = Some w /\ In w (getSegmentAngles l).
Proof.
  intros Hne. destruct (first_segment_exists Hne) as [s0 Hs0].
  unfold selectWinner. rewrite Hs0.
  destruct (scanSegments ((rot + totalRotation random) mod lit 360) (Some s0)
                         (getSegmentAngles l)) as [w |] eqn:E.
  - exists w. split; [reflexivity |].
    destruct (scanSegments_in _ _ _ E) as [-> | Hin]; [| exact Hin].
    apply (nth_error_In _ 0). exact Hs0.
  - exfalso.
    destruct (scanSegments_first ((rot + totalRotation random) mod lit 360)
                (Some s0) (getSegmentAngles l))
      as [(? & w & ? & _ & _ & _ & H) | [_ H]]; congruence.
Qed.

(** X3: on a non-empty roster the winner recorded by a spin is never
    undefined: it is one of the segments of the layout, and the entrant it
    stands for is a row of the roster.  This holds for any arithmetic, so
    also when rounding makes the loop find no segment. *)
Theorem recorded_winner_is_an_entrant (l : list (Person num)) (rot random : num) :
  l <> [] ->
  exists w,
    selectWinner l rot random = Some w /\
    In w (getSegmentAngles l) /\
    In (person (wperson w)) l.
Proof.
  intros Hne. destruct (selectWinner_in rot random Hne) as (w & Hw & Hin).
  exists w. split; [exact Hw |]. split; [exact Hin |].
  rewrite <- (getSegmentAngles_person l).
  apply (in_map (fun s => person (wperson s))). exact Hin.
Qed.

(** X4: an entrant alone on the wheel wins every spin, whatever the rotation
    and the sample, in any arithmetic. *)
Theorem single_entrant_always_wins (p : Person num) (rot random : num) :
  exists w,
    selectWinner [p] rot random = Some w /\ person (wperson w) = p.
Proof.
  assert (Hne : [p] <> []) by discriminate.
  destruct (selectWinner_in rot random Hne) as (w & Hw & Hin).
  exists w. split; [exact Hw |].
  assert (H : In (person (wperson w)) [p]).
  { rewrite <- (getSegmentAngles_person [p]).
    apply (in_map (fun s => person (wperson s))). exact Hin. }
  destruct H as [H | []]. symmetry. exact H.
Qed.

Lemma step_consistent (st : AppState num) (ev : Event num) :
  consistent st -> consistent (step st ev).
Proof.
  intros Hc.
  destruct (isSpinning st) eqn:Hs.
  - destruct ev as [text | now | now | row | row | | random |];
      try (rewrite spinning_page_ignores_user; [exact Hc | exact Hs | discriminate]).
    unfold consistent in Hc. simpl.
    destruct (timers st) as [| [w |] [| t rest]] eqn:Ht; try contradiction.
    + congruence.
    + simpl. unfold consistent. simpl. rewrite Ht. reflexivity.
  - assert (Ht : timers st = []).
    { unfold consistent in Hc.
      destruct (timers st) as [| [w |] [| t rest]]; try contradiction;
        [reflexivity | destruct Hc; congruence]. }
    assert (Hkeep : forall st' : AppState num,
               timers st' = timers st -> isSpinning st' = isSpinning st ->
               consistent st').
    { intros st' E1 E2. unfold consistent. rewrite E1, Ht, E2. exact Hs. }
    destruct ev as [text | now | now | row | row | | random |]; simpl;
      rewrite ?Hs; simpl.
    + apply Hkeep; reflexivity.
    + unfold addName. destruct (_ && _); [apply Hkeep; reflexivity | exact Hc].
    + destruct (negb _); [exact Hc |].
      unfold addName. destruct (_ && _); [apply Hkeep; reflexivity | exact Hc].
    + destruct (nth_error (names st) row); [apply Hkeep; reflexivity | exact Hc].
    + destruct (nth_error (names st) row); [| exact Hc].
      destruct (_ === _); [exact Hc | apply Hkeep; reflexivity].
    + apply Hkeep; reflexivity.
    + rewrite orb_false_r.
      destruct (List.length (names st) =? 0)%nat eqn:El; [exact Hc |].
      assert (Hne : names st <> []).
      { intros E. rewrite E in El. discriminate. }
      rewrite (spinWheel_spins st random Hne).
      destruct (selectWinner_in (rotation st) random Hne) as (w & Hw & Hin).
      unfold consistent. simpl. rewrite Ht, Hw. simpl.
      split; [reflexivity |].
      unfold segId. rewrite <- (getSegmentAngles_person (names st)).
      rewrite map_map.
      apply (in_map (fun s => id (person (wperson s)))). exact Hin.
    + rewrite Ht. exact Hc.
Qed.

(** X5: however the page is used, starting from any saved roster, the
    spinning flag and the timers stay in step: an idle page has no pending
    timer and a spinning page has exactly one, whose winner is defined and
    carries the id of a row of the roster. *)
Theorem page_stays_consistent (saved : option (list (Person num)))
        (evs : list (Event num)) :
  consistent (run (initialState saved) evs).
Proof.
  assert (H : forall (l : list (Event num)) (st : AppState num),
             consistent st -> consistent (run st l)).
  { induction l as [| ev l IH]; intros st Hc; simpl; [exact Hc |].
    apply IH. apply step_consistent. exact Hc. }
  apply H. unfold consistent. reflexivity.
Qed.

(** X6: a click on the spin button of an idle page with a non-empty roster,
    followed by the expiry of the timer, leaves the page idle again with no
    timer, shows as winner the name of an entrant of the roster, has added
    [360 * 5 + random * 360] to the rotation, has run the win update for that
    winner on the roster and has not touched the name field. *)
Theorem completed_spin (st : AppState num) (random : num) :
  timers st = [] ->
  isSpinning st = false ->
  names st <> [] ->
  let st' := step (step st (ClickSpin random)) Timeout in
  exists w,
    selectWinner (names st) (rotation st) random = Some w /\
    isSpinning st' = false /\
    timers st' = [] /\
    winner st' = Some (segName w) /\
    In (segName w) (map (@name num) (names st)) /\
    rotation st' = rotation st + (lit 360 * lit 5 + random * lit 360) /\
    names st' = incrementWins w (names st) /\
    newName st' = newName st.
Proof.
  intros Ht Hs Hne st'.
  destruct (selectWinner_in (rotation st) random Hne) as (w & Hw & Hin).
  exists w. split; [exact Hw |].
  assert (E : st' = commit (dropTimer (spinWheel st random)) (Some w)).
  { unfold st'. simpl. rewrite Hs, (names_nonempty_length Hne). simpl.
    rewrite (spinWheel_spins st random Hne). simpl. rewrite Ht, Hw. reflexivity. }
  rewrite E, (spinWheel_spins st random Hne). simpl. rewrite Ht. simpl.
  repeat split.
  unfold segName. rewrite <- (getSegmentAngles_person (names st)).
  rewrite map_map.
  apply (in_map (fun s => name (person (wperson s)))). exact Hin.
Qed.

Lemma nodup_snoc (A : Type) (l : list A) (x : A) :
  NoDup l -> ~ In x l -> NoDup (l ++ [x]).
Proof.
  induction l as [| a l IH]; intros Hnd Hx; simpl.
  - constructor; [intros [] | constructor].
  - inversion Hnd as [| ? ? Ha Hl]; subst. constructor.
    + intros Hin. apply in_app_or in Hin. destruct Hin as [Hin | [E | []]].
      * exact (Ha Hin).
      * apply Hx. left. symmetry. exact E.
    + apply IH; [exact Hl |]. intros Hin. apply Hx. right. exact Hin.
Qed.

Lemma nodup_map_filter (A B : Type) (f : A -> B) (g : A -> bool) (l : list A) :
  NoDup (map f l) -> NoDup (map f (filter g l)).
Proof.
  induction l as [| a l IH]; simpl; intros Hnd; [constructor |].
  inversion Hnd as [| ? ? Ha Hl]; subst.
  destruct (g a); simpl; [| exact (IH Hl)].
  constructor; [| exact (IH Hl)].
  intros Hin. apply Ha. apply in_map_iff in Hin.
  destruct Hin as (x & Ex & Hx). apply filter_In in Hx.
  apply in_map_iff. exists x. split; [exact Ex | exact (proj1 Hx)].
Qed.

Lemma timestampId_inj (a b : N) : timestampId a = timestampId b -> a = b.
Proof.
  unfold timestampId. intros E.
  apply DecimalN.Unsigned.to_uint_inj.
  assert (H : NilEmpty.uint_of_string (NilEmpty.string_of_uint (N.to_uint a)) =
              NilEmpty.uint_of_string (NilEmpty.string_of_uint (N.to_uint b)))
    by (rewrite E; reflexivity).
  rewrite !NilEmpty.usu in H. congruence.
Qed.

Lemma step_names_cases (st : AppState num) (ev : Event num) :
  (exists f : Person num -> Person num,
      (forall p, id (f p) = id p /\ name (f p) = name p) /\
      names (step st ev) = map f (names st)) \/
  (exists g, names (step st ev) = filter g (names st)) \/
  (exists now,
      (ev = ClickAdd now \/ ev = PressEnter now) /\
      truthy (trim (newName st)) = true /\
      existsb (fun person =>
                 String.eqb (toLowerCase (name person)) (toLowerCase (newName st)))
              (names st) = false /\
      names (step st ev) =
      names st ++ [{| id := timestampId now; name := trim (newName st); wins := lit 0 |}]).
Proof.
  assert (Hsame : (exists f : Person num -> Person num,
                      (forall p, id (f p) = id p /\ name (f p) = name p) /\
                      names st = map f (names st))).
  { exists (fun p => p). split; [intros p; split; reflexivity |].
    symmetry. apply map_id. }
  assert (Hadd : forall now (ev' : Event num),
             (ev' = ClickAdd now \/ ev' = PressEnter now) ->
             (exists f : Person num -> Person num,
                 (forall p, id (f p) = id p /\ name (f p) = name p) /\
                 names (addName st now) = map f (names st)) \/
             (exists g, names (addName st now) = filter g (names st)) \/
             (exists now',
                 (ev' = ClickAdd now' \/ ev' = PressEnter now') /\
                 truthy (trim (newName st)) = true /\
                 existsb (fun person =>
                            String.eqb (toLowerCase (name person))
                                       (toLowerCase (newName st)))
                         (names st) = false /\
                 names (addName st now) =
                 names st ++ [{| id := timestampId now'; name := trim (newName st);
                                 wins := lit 0 |}])).
  { intros now ev' Hev'. unfold addName.
    destruct (truthy (trim (newName st))) eqn:E1; simpl; [| left; exact Hsame].
    destruct (existsb _ (names st)) eqn:E2; simpl; [left; exact Hsame |].
    right. right. exists now. repeat split; assumption. }
  destruct ev as [text | now | now | row | row | | random |]; simpl.
  - destruct (isSpinning st); left; exact Hsame.
  - destruct (isSpinning st); [left; exact Hsame |].
    apply (Hadd now (PressEnter now)). right. reflexivity.
  - destruct (_ || _); [left; exact Hsame |].
    apply (Hadd now (ClickAdd now)). left. reflexivity.
  - destruct (nth_error (names st) row) as [p |]; [| left; exact Hsame].
    destruct (isSpinning st); [left; exact Hsame |].
    right. left. eexists. reflexivity.
  - destruct (nth_error (names st) row) as [p |]; [| left; exact Hsame].
    destruct (_ || _); [left; exact Hsame |].
    left. eexists. split; [| reflexivity].
    intros q. cbv beta. destruct (String.eqb (id q) (id p)); split; reflexivity.
  - destruct (isSpinning st); [left; exact Hsame |].
    left. eexists. split; [| reflexivity]. intros q. cbv beta. split; reflexivity.
  - destruct (_ || _); [left; exact Hsame |].
    unfold spinWheel. destruct (_ =? _)%nat; left; exact Hsame.
  - destruct (timers st) as [| [w |] rest]; [left; exact Hsame | | left; exact Hsame].
    left. eexists. split; [| reflexivity].
    intros q. cbv beta. destruct (String.eqb (id q) (segId w)); split; reflexivity.
Qed.

(** X7: ids stay unique.  If no two rows share an id, then after any event
    no two rows share an id, provided that, when the event adds a name, the
    clock value is not the id of a row already there.  Two different clock
    values never give the same id. *)
Theorem ids_stay_unique (st : AppState num) (ev : Event num) :
  NoDup (map (@id num) (names st)) ->
  (forall now,
      ev = ClickAdd now \/ ev = PressEnter now ->
      ~ In (timestampId now) (map (@id num) (names st))) ->
  NoDup (map (@id num) (names (step st ev))) /\
  (forall a b, timestampId a = timestampId b -> a = b).
Proof.
  intros Hnd Hfresh. split; [| exact timestampId_inj].
  destruct (step_names_cases st ev)
    as [(f & Hf & E) | [(g & E) | (now & Hev & _ & _ & E)]]; rewrite E.
  - rewrite map_map.
    rewrite (map_ext (fun p => id (f p)) (@id num)); [exact Hnd |].
    intros p. apply (Hf p).
  - apply nodup_map_filter. exact Hnd.
  - rewrite map_app. simpl. apply nodup_snoc; [exact Hnd |].
    apply (Hfresh now Hev).
Qed.

End PageProtocol.

(** ** The roster and its names, for any arithmetic *)

Section RosterNames.

Context {num : Type} {ops : Number num}.

Lemma trimEnd_head (c : ascii) (r : string) :
  is_space c = false ->
  exists r', trimEnd (String c r) = String c r'.
Proof.
  intros Hc. simpl. destruct (trimEnd r) as [| c' r'].
  - rewrite Hc. exists EmptyString. reflexivity.
  - exists (String c' r'). reflexivity.
Qed.

Lemma trimStart_head (s : string) :
  trimStart s = EmptyString \/
  exists c r, trimStart s = String c r /\ is_space c = false.
Proof.
  induction s as [| c s IH]; simpl.
  - left. reflexivity.
  - destruct (is_space c) eqn:E; [exact IH |].
    right. exists c, s. split; [reflexivity | exact E].
Qed.

Lemma trimEnd_idempotent (s : string) : trimEnd (trimEnd s) = trimEnd s.
Proof.
  induction s as [| c s IH]; simpl; [reflexivity |].
  destruct (trimEnd s) as [| c' r'] eqn:E.
  - destruct (is_space c) eqn:Ec; simpl; [reflexivity |]. rewrite Ec. reflexivity.
  - change (trimEnd (String c (String c' r'))) with
      (match trimEnd (String c' r') with
       | EmptyString => if is_space c then EmptyString else String c EmptyString
       | rest' => String c rest'
       end).
    rewrite IH. reflexivity.
Qed.

(** Trimming twice is trimming once. *)
Lemma trim_idempotent (s : string) : trim (trim s) = trim s.
Proof.
  unfold trim.
  destruct (trimStart_head s) as [E | (c & r & E & Hc)]; rewrite E.
  - reflexivity.
  - destruct (@trimEnd_head c r Hc) as [r' Er]. rewrite Er.
    assert (Es : trimStart (String c r') = String c r') by (simpl; now rewrite Hc).
    rewrite Es, <- Er. apply trimEnd_idempotent.
Qed.

Lemma truthy_nonempty (s : string) : truthy s = true -> s <> EmptyString.
Proof. destruct s; [discriminate | discriminate]. Qed.

(** X8: the names of the roster stay tidy.  If every stored name is
    non-empty and has no white space around it, this is still so after any
    event: [addName] refuses a field holding white space only and stores the
    field trimmed. *)
Theorem stored_names_stay_tidy (st : AppState num) (evs : list (Event num)) :
  Forall (fun p => tidyName (name p)) (names st) ->
  Forall (fun p => tidyName (name p)) (names (run st evs)).
Proof.
  revert st. induction evs as [| ev evs IH]; intros st Ht; simpl; [exact Ht |].
  apply IH.
  destruct (step_names_cases st ev)
    as [(f & Hf & E) | [(g & E) | (now & _ & Htruthy & _ & E)]]; rewrite E.
  - apply Forall_map. apply (Forall_impl _ (P := fun p => tidyName (name p)));
      [| exact Ht].
    intros p Hp. rewrite (proj2 (Hf p)). exact Hp.
  - apply Forall_forall. intros p Hp. apply filter_In in Hp.
    rewrite Forall_forall in Ht. apply Ht. exact (proj1 Hp).
  - apply Forall_app. split; [exact Ht |].
    constructor; [| constructor]. simpl. split.
    + apply truthy_nonempty. exact Htruthy.
    + apply trim_idempotent.
Qed.

(** X9: names stay distinct when the field is typed without white space
    around it.  If no two stored names are equal up to letter case, this is
    still so after any event, provided that, when the event adds a name, the
    field holds its text already trimmed. *)
Theorem names_stay_distinct_without_padding (st : AppState num) (ev : Event num) :
  distinctNames (names st) ->
  (forall now,
      ev = ClickAdd now \/ ev = PressEnter now ->
      trim (newName st) = newName st) ->
  distinctNames (names (step st ev)).
Proof.
  unfold distinctNames. intros Hnd Hfield.
  destruct (step_names_cases st ev)
    as [(f & Hf & E) | [(g & E) | (now & Hev & _ & Hnew & E)]]; rewrite E.
  - rewrite map_map.
    rewrite (map_ext (fun p => toLowerCase (name (f p)))
                     (fun p => toLowerCase (name p))); [exact Hnd |].
    intros p. now rewrite (proj2 (Hf p)).
  - apply nodup_map_filter. exact Hnd.
  - rewrite map_app. simpl. apply nodup_snoc; [exact Hnd |].
    rewrite (Hfield now Hev). intros Hin. apply in_map_iff in Hin.
    destruct Hin as (p & Ep & Hp).
    assert (Hex : existsb
                    (fun person =>
                       String.eqb (toLowerCase (name person)) (toLowerCase (newName st)))
                    (names st) = true).
    { apply existsb_exists. exists p. split; [exact Hp |].
      apply String.eqb_eq. exact Ep. }
    congruence.
Qed.

Lemma filter_all (A : Type) (g : A -> bool) (l : list A) :
  (forall x, In x l -> g x = true) -> filter g l = l.
Proof.
  induction l as [| a l IH]; intros H; simpl; [reflexivity |].
  rewrite (H a (or_introl eq_refl)). f_equal. apply IH.
  intros x Hx. apply H. right. exact Hx.
Qed.

Lemma filter_other_ids (l : list (Person num)) (i : string) :
  ~ In i (map (@id num) l) ->
  filter (fun person => negb (String.eqb (id person) i)) l = l.
Proof.
  intros Hi. apply filter_all. intros x Hx.
  apply negb_true_iff. apply String.eqb_neq. intros E. apply Hi.
  rewrite <- E. apply in_map. exact Hx.
Qed.

(** X10: with unique ids, the remove button of a row removes that row and
    nothing else, the other rows keeping their order. *)
Theorem remove_button_removes_its_row (st : AppState num) (row : nat)
        (p : Person num) :
  isSpinning st = false ->
  NoDup (map (@id num) (names st)) ->
  nth_error (names st) row = Some p ->
  names (step st (ClickRemove row)) =
  firstn row (names st) ++ skipn (S row) (names st).
Proof.
  intros Hs Hnd Hrow. simpl. rewrite Hrow, Hs. simpl.
  clear Hs. revert row Hnd Hrow.
  induction (names st) as [| a l IH]; intros row Hnd Hrow.
  - destruct row; discriminate.
  - inversion Hnd as [| ? ? Ha Hl]; subst. destruct row as [| row].
    + simpl in Hrow. injection Hrow as ->. simpl.
      rewrite String.eqb_refl. simpl. apply filter_other_ids. exact Ha.
    + simpl in Hrow. simpl.
      assert (Hap : id a <> id p).
      { intros E. apply Ha. rewrite E. apply in_map.
        apply (nth_error_In _ _ Hrow). }
      apply String.eqb_neq in Hap. rewrite Hap. simpl. f_equal.
      apply IH; assumption.
Qed.

End RosterNames.

(** ** Win counts *)

Section WinCounts.

Local Open Scope Q_scope.

Ltac qops := cbn [add sub mul div rem max geb ltb seqb lit dec Q_Number] in *.

Lemma Qmax_js_nonneg (a : Q) : 0 <= Qmax_js 0 a.
Proof.
  unfold Qmax_js. destruct (Qle_bool 0 a) eqn:E.
  - apply Qle_bool_iff. exact E.
  - apply Qle_refl.
Qed.

Lemma step_nonNegativeWins (st : AppState Q) (ev : Event Q) :
  nonNegativeWins (names st) -> nonNegativeWins (names (step st ev)).
Proof.
  unfold nonNegativeWins. intros Hnn.
  assert (Hadd : forall now, Forall (fun p => 0 <= wins p) (names (addName st now))).
  { intros now. unfold addName. destruct (_ && _); [| exact Hnn].
    simpl. apply Forall_app. split; [exact Hnn |].
    constructor; [simpl; apply Qle_refl | constructor]. }
  destruct ev as [text | now | now | row | row | | random |]; simpl.
  - destruct (isSpinning st); exact Hnn.
  - destruct (isSpinning st); [exact Hnn | apply Hadd].
  - destruct (_ || _); [exact Hnn | apply Hadd].
  - destruct (nth_error (names st) row) as [p |]; [| exact Hnn].
    destruct (isSpinning st); [exact Hnn |]. simpl.
    apply Forall_forall. intros q Hq. apply filter_In in Hq.
    rewrite Forall_forall in Hnn. apply Hnn. exact (proj1 Hq).
  - destruct (nth_error (names st) row) as [p |]; [| exact Hnn].
    destruct (_ || _); [exact Hnn |]. simpl.
    apply Forall_map. apply (Forall_impl _ (P := fun p => 0 <= wins p)); [| exact Hnn].
    intros q Hq. destruct (String.eqb (id q) (id p)); [| exact Hq].
    simpl. apply Qmax_js_nonneg.
  - destruct (isSpinning st); [exact Hnn |]. simpl.
    apply Forall_map. apply Forall_forall. intros q _. simpl. apply Qle_refl.
  - destruct (_ || _); [exact Hnn |].
    unfold spinWheel. destruct (_ =? _)%nat; exact Hnn.
  - destruct (timers st) as [| [w |] rest]; [exact Hnn | | exact Hnn]. simpl.
    apply Forall_map. apply (Forall_impl _ (P := fun p => 0 <= wins p)); [| exact Hnn].
    intros q Hq. destruct (String.eqb (id q) (segId w)); [| exact Hq].
    simpl. qops. change (inject_Z 1) with 1. lra.
Qed.

(** X16: win counts never go negative.  If no entrant of the roster has a
    negative win count, no sequence of events produces one: the decrease
    button stops at 0. *)
Theorem wins_never_go_negative (st : AppState Q) (evs : list (Event Q)) :
  nonNegativeWins (names st) ->
  nonNegativeWins (names (run st evs)).
Proof.
  revert st. induction evs as [| ev evs IH]; intros st Hnn; simpl; [exact Hnn |].
  apply IH. apply step_nonNegativeWins. exact Hnn.
Qed.

Lemma wins_never_go_negative_witness :
  let st := idle (@twoEntrants Q _) in
  let evs := [ClickDecrease 0; ClickSpin (1 # 2); Timeout; ClickDecrease 1] in
  nonNegativeWins (names st) /\
  map (fun p => Qred (wins p)) (names (run st evs)) = [0; 0] /\
  nonNegativeWins (names (run st evs)).
Proof.
  intros st evs.
  assert (Hnn : nonNegativeWins (names st)).
  { unfold nonNegativeWins. repeat constructor; vm_compute; discriminate. }
  split; [exact Hnn |].
  split; [vm_compute; reflexivity |].
  exact (wins_never_go_negative st evs Hnn).
Defined.







End WinCounts.

(** ** The further properties on concrete pages *)

Lemma spinning_page_ignores_user_witness :
  (isSpinning awaitingCommit = true /\ @ClickReset Q <> Timeout) /\
  step awaitingCommit ClickReset = awaitingCommit.
Proof.
  assert (Hs : isSpinning awaitingCommit = true) by reflexivity.
  assert (Hev : @ClickReset Q <> Timeout) by discriminate.
  split; [split; assumption |].
  exact (spinning_page_ignores_user awaitingCommit Hs Hev).
Defined.

Lemma recorded_winner_is_an_entrant_witness :
  sevenEntrants <> [] /\
  exists w,
    selectWinner sevenEntrants 0%float tinySample = Some w /\
    In w (getSegmentAngles sevenEntrants) /\
    In (person (wperson w)) sevenEntrants.
Proof.
  assert (Hne : sevenEntrants <> []) by discriminate.
  split; [exact Hne |].
  exact (recorded_winner_is_an_entrant 0%float tinySample Hne).
Defined.

Lemma completed_spin_witness :
  let st := idle (@twoEntrants Q _) in
  let st' := step (step st (ClickSpin (200 / 360)%Q)) Timeout in
  (timers st = [] /\ isSpinning st = false /\ names st <> []) /\
  (winner st', Qred (rotation st'), map (fun p => Qred (wins p)) (names st')) =
  (Some "A"%string, 2000%Q, [1%Q; 0%Q]) /\
  exists w,
    selectWinner (names st) (rotation st) (200 / 360)%Q = Some w /\
    isSpinning st' = false /\
    timers st' = [] /\
    winner st' = Some (segName w).
Proof.
  intros st st'.
  assert (Ht : timers st = []) by reflexivity.
  assert (Hs : isSpinning st = false) by reflexivity.
  assert (Hne : names st <> []) by discriminate.
  split; [repeat split; assumption |].
  split; [vm_compute; reflexivity |].
  destruct (completed_spin st (200 / 360)%Q Ht Hs Hne)
    as (w & H1 & H2 & H3 & H4 & _).
  exists w. repeat split; assumption.
Defined.

Lemma ids_stay_unique_witness :
  let st := typing (@twoEntrants Q _) "Carol" in
  let ev := @ClickAdd Q 1700000000000 in
  NoDup (map (@id Q) (names st)) /\
  map (@id Q) (names (step st ev)) =
  ["1"%string; "2"%string; "1700000000000"%string] /\
  NoDup (map (@id Q) (names (step st ev))).
Proof.
  intros st ev.
  assert (Hnd : NoDup (map (@id Q) (names st))).
  { simpl. repeat constructor; simpl; intuition discriminate. }
  assert (Hfresh : forall now,
             ev = ClickAdd now \/ ev = PressEnter now ->
             ~ In (timestampId now) (map (@id Q) (names st))).
  { intros now [E | E]; [| discriminate].
    injection E as <-. vm_compute. intuition discriminate. }
  split; [exact Hnd |].
  split; [vm_compute; reflexivity |].
  exact (proj1 (@ids_stay_unique Q _ st ev Hnd Hfresh)).
Defined.

Lemma stored_names_stay_tidy_witness :
  let st := typing (@twoEntrants Q _) "  Carol " in
  let evs := [@ClickAdd Q 5; Change "   "; PressEnter 6] in
  Forall (fun p => tidyName (name p)) (names st) /\
  map (@name Q) (names (run st evs)) = ["A"%string; "B"%string; "Carol"%string] /\
  Forall (fun p => tidyName (name p)) (names (run st evs)).
Proof.
  intros st evs.
  assert (Ht : Forall (fun p => tidyName (name p)) (names st)).
  { repeat constructor; simpl; discriminate. }
  split; [exact Ht |].
  split; [vm_compute; reflexivity |].
  exact (@stored_names_stay_tidy Q _ st evs Ht).
Defined.

Lemma names_stay_distinct_without_padding_witness :
  let st := typing (@twoEntrants Q _) "b" in
  let ev := @PressEnter Q 7 in
  (distinctNames (names st) /\ trim (newName st) = newName st) /\
  map (@name Q) (names (step st ev)) = ["A"%string; "B"%string] /\
  distinctNames (names (step st ev)).
Proof.
  intros st ev.
  assert (Hd : distinctNames (names st)).
  { unfold distinctNames. simpl. repeat constructor; simpl; intuition discriminate. }
  assert (Hf : forall now,
             ev = ClickAdd now \/ ev = PressEnter now ->
             trim (newName st) = newName st)
    by (intros now _; reflexivity).
  split; [split; [exact Hd | reflexivity] |].
  split; [vm_compute; reflexivity |].
  exact (@names_stay_distinct_without_padding Q _ st ev Hd Hf).
Defined.

Lemma remove_button_removes_its_row_witness :
  let st := idle threeEntrants in
  (isSpinning st = false /\ NoDup (map (@id Q) (names st))) /\
  map (@name Q) (names (step st (ClickRemove 1))) = ["Ann"%string; "Cem"%string] /\
  names (step st (ClickRemove 1)) = firstn 1 (names st) ++ skipn 2 (names st).
Proof.
  intros st.
  assert (Hs : isSpinning st = false) by reflexivity.
  assert (Hnd : NoDup (map (@id Q) (names st))).
  { simpl. repeat constructor; simpl; intuition discriminate. }
  assert (Hrow : nth_error (names st) 1 = Some (entrant "2" "Bob" 3)) by reflexivity.
  split; [split; assumption |].
  split; [vm_compute; reflexivity |].
  exact (@remove_button_removes_its_row Q _ st 1 _ Hs Hnd Hrow).
Defined.

(** ** The floor of the weight and the wheel after a reset *)

Section FloorAndReset.

Local Open Scope num_scope.

(** X14: in binary64 the penalty is capped from five wins on: an entrant
    with five wins or more has exactly the weight 0.1. *)
Theorem five_wins_reach_the_floor (l : list (Person float)) (i : nat) (p : Person float) :
  nth_error l i = Some p ->
  PrimFloat.leb 5 (wins p) = true ->
  exists wp,
    nth_error (calculateWeightedSegments l) i = Some wp /\
    person wp = p /\
    weight wp = dec 1 10.
Proof.
  intros Hi H5.
  eexists. split;
    [unfold calculateWeightedSegments; cbv zeta; rewrite nth_error_map, Hi; reflexivity |].
  cbn [person weight]. split; [reflexivity |].
  cbn [max dec lit sub mul float_Number].
  set (tenth := (float_of_Z 1 / float_of_Z 10)%float).
  set (fifth := (float_of_Z 2 / float_of_Z 10)%float).
  set (one := float_of_Z 1).
  assert (Hm : PrimFloat.leb (5 * fifth) (wins p * fifth) = true).
  { eapply mul_mono_r; [vm_compute; reflexivity | reflexivity | exact H5]. }
  assert (Hz : PrimFloat.leb 0 (5 * fifth) = true) by (vm_compute; reflexivity).
  assert (Hs : PrimFloat.leb (one - wins p * fifth) (one - 5 * fifth) = true).
  { apply sub_anti_r; [vm_compute; exact I | exact Hz | exact Hm]. }
  apply leb_rank in Hs. destruct Hs as (Nx & _ & Hs).
  assert (Nt : notnan tenth) by (vm_compute; discriminate).
  assert (Hlt : (frank (one - 5 * fifth) < frank tenth)%Z) by (vm_compute; reflexivity).
  apply float_max_left; [exact Nt | exact Nx | lia].
Qed.

End FloorAndReset.

Section ResetWheel.

Context {num : Type} {ops : Number num}.
Local Open Scope num_scope.

Lemma segment_of_roster (l : list (Person num)) (s : Segment num) :
  In s (getSegmentAngles l) ->
  In (person (wperson s)) l /\
  weight (wperson s) =
  max (dec 1 10) (lit 1 - wins (person (wperson s)) * dec 2 10) /\
  segmentAngle s =
  weight (wperson s) /
  fold_left (fun sum person => sum + weight person) (calculateWeightedSegments l) (lit 0) *
  lit 360.
Proof.
  intros Hin.
  assert (Hw : In (wperson s) (calculateWeightedSegments l)).
  { rewrite <- getSegmentAngles_wperson. apply in_map. exact Hin. }
  unfold calculateWeightedSegments in Hw. cbv zeta in Hw.
  apply in_map_iff in Hw. destruct Hw as (p & Ep & Hp).
  split; [rewrite <- Ep; exact Hp |].
  split; [rewrite <- Ep; reflexivity |].
  unfold getSegmentAngles in Hin. cbv zeta in Hin.
  exact (proj1 (layoutFrom_shape _ _ _ _ Hin)).
Qed.

(** X17: after Reset All Wins on an idle page every entrant has no win, and
    all the segments of the wheel have the same weight and the same size. *)
Theorem reset_gives_equal_wedges (st : AppState num) (s1 s2 : Segment num) :
  isSpinning st = false ->
  let st' := step st ClickReset in
  In s1 (getSegmentAngles (names st')) ->
  In s2 (getSegmentAngles (names st')) ->
  wins (person (wperson s1)) = lit 0 /\
  weight (wperson s1) = weight (wperson s2) /\
  segmentAngle s1 = segmentAngle s2.
Proof.
  intros Hidle st' H1 H2.
  assert (En : names st' =
               map (fun person => {| id := id person; name := name person; wins := lit 0 |})
                   (names st)).
  { unfold st'. cbn [step]. rewrite Hidle. reflexivity. }
  assert (Hz : forall s, In s (getSegmentAngles (names st')) ->
                         wins (person (wperson s)) = lit 0).
  { intros s Hs. destruct (segment_of_roster _ _ Hs) as (Hp & _).
    rewrite En in Hp. apply in_map_iff in Hp. destruct Hp as (q & <- & _).
    reflexivity. }
  destruct (segment_of_roster _ _ H1) as (_ & W1 & A1).
  destruct (segment_of_roster _ _ H2) as (_ & W2 & A2).
  assert (EW : weight (wperson s1) = weight (wperson s2)).
  { rewrite W1, W2, (Hz s1 H1), (Hz s2 H2). reflexivity. }
  split; [exact (Hz s1 H1) |].
  split; [exact EW |].
  rewrite A1, A2, EW. reflexivity.
Qed.

End ResetWheel.

Lemma five_wins_reach_the_floor_witness :
  (nth_error sevenEntrants 6 = Some (entrant "7" "Gus" 5) /\
   PrimFloat.leb 5 5 = true) /\
  exists wp,
    nth_error (calculateWeightedSegments sevenEntrants) 6 = Some wp /\
    person wp = entrant "7" "Gus" 5 /\
    weight wp = 0x1.999999999999ap-4%float.
Proof.
  assert (Hi : nth_error sevenEntrants 6 = Some (entrant "7" "Gus" 5)) by reflexivity.
  assert (H5 : PrimFloat.leb 5 (wins (entrant (ops := float_Number) "7" "Gus" 5)) = true)
    by (vm_compute; reflexivity).
  split; [split; reflexivity |].
  destruct (five_wins_reach_the_floor sevenEntrants 6 Hi H5) as (wp & E & Hp & Hw).
  exists wp. split; [exact E |]. split; [exact Hp |].
  rewrite Hw. vm_compute. reflexivity.
Defined.

Lemma reset_gives_equal_wedges_witness :
  let st := idle sevenEntrants in
  let st' := step st ClickReset in
  let s1 := nth 0 (getSegmentAngles (names st')) noSegment in
  let s2 := nth 6 (getSegmentAngles (names st')) noSegment in
  (isSpinning st = false /\
   In s1 (getSegmentAngles (names st')) /\
   In s2 (getSegmentAngles (names st'))) /\
  (segName s1, segName s2) = ("Ann"%string, "Gus"%string) /\
  wins (person (wperson s1)) = 0%float /\
  weight (wperson s1) = weight (wperson s2) /\
  segmentAngle s1 = segmentAngle s2.
Proof.
  intros st st' s1 s2.
  assert (Hidle : isSpinning st = false) by reflexivity.
  assert (H1 : In s1 (getSegmentAngles (names st'))).
  { apply nth_In. vm_compute. repeat constructor. }
  assert (H2 : In s2 (getSegmentAngles (names st'))).
  { apply nth_In. vm_compute. repeat constructor. }
  split; [repeat split; assumption |].
  split; [vm_compute; reflexivity |].
  destruct (@reset_gives_equal_wedges float _ st s1 s2 Hidle H1 H2) as (Hz & Hw & Ha).
  split; [rewrite Hz; vm_compute; reflexivity |].
  split; assumption.
Defined.

(** Names outside ASCII: a no-break space is trimmed and an accented capital
    is folded. *)
Example latin1_names :
  trim (String (ascii_of_nat 160) "Alice ") = "Alice"%string /\
  toLowerCase (String (ascii_of_nat 201) "mile") = String (ascii_of_nat 233) "mile".
Proof. split; vm_compute; reflexivity. Qed.

(** ** The scan of the segments in binary64 *)

Section ScanInBinary64.

Local Open Scope num_scope.

Lemma notnan_of_is_nan (x : float) : PrimFloat.is_nan x = false -> notnan x.
Proof.
  unfold PrimFloat.is_nan. rewrite eqb_spec. intros H E.
  unfold SFeqb in H. rewrite E in H. discriminate.
Qed.

Lemma leb_of_not_ltb (a b : float) :
  notnan a -> notnan b -> PrimFloat.ltb a b = false -> PrimFloat.leb b a = true.
Proof.
  intros Na Nb H. apply leb_rank. split; [exact Nb |]. split; [exact Na |].
  destruct (Z_le_gt_dec (frank b) (frank a)) as [Hle | Hgt]; [exact Hle |].
  assert (X : PrimFloat.ltb a b = true)
    by (apply ltb_rank; split; [exact Na |]; split; [exact Nb | lia]).
  congruence.
Qed.

(** Walking along the segments, the angle stays at or above the start of
    the segment at hand until a segment ends beyond it. *)
Lemma layoutFrom_first_beyond (totalWeight angle : float)
      (before : list (Segment float)) :
  forall (ws : list (WeightedPerson float)) (currentAngle : float)
         (w : Segment float) (after : list (Segment float)),
    layoutFrom totalWeight currentAngle ws = before ++ w :: after ->
    PrimFloat.leb currentAngle angle = true ->
    Forall (fun s => PrimFloat.is_nan (endAngle s) = false) before ->
    Forall (fun s => PrimFloat.ltb angle (endAngle s) = false) before ->
    PrimFloat.ltb angle (endAngle w) = true ->
    Forall (fun s => contains s angle = false) before /\ contains w angle = true.
Proof.
  induction before as [| s0 before IH]; intros ws c w after E Hc Hnan Hb Hw.
  - split; [constructor |].
    destruct ws as [| w0 ws]; [discriminate |].
    cbn [layoutFrom app] in E. injection E as E _. subst w.
    unfold contains. cbn [startAngle endAngle geb ltb float_Number] in *.
    rewrite Hc. exact Hw.
  - destruct ws as [| w0 ws]; [discriminate |].
    cbn [layoutFrom app] in E. injection E as E0 E.
    inversion Hnan as [| ? ? Hn0 Hnan']; subst.
    inversion Hb as [| ? ? Hb0 Hb']; subst.
    cbn [endAngle] in Hn0, Hb0.
    assert (Na : notnan angle) by (apply leb_rank in Hc; tauto).
    assert (Hc' : PrimFloat.leb (c + weight w0 / totalWeight * lit 360) angle = true).
    { apply leb_of_not_ltb; [exact Na | apply notnan_of_is_nan; exact Hn0 | exact Hb0]. }
    destruct (IH ws _ w after E Hc' Hnan' Hb' Hw) as [Hbefore Hin].
    split; [| exact Hin].
    constructor; [| exact Hbefore].
    unfold contains. cbn [startAngle endAngle geb ltb float_Number].
    cbn [add float_Number] in Hb0. rewrite Hb0. apply andb_false_r.
Qed.

Lemma scanSegments_skips (finalRotation : float) (selectedWinner : option (Segment float))
      (before : list (Segment float)) (w : Segment float) (after : list (Segment float)) :
  Forall (fun s => atTop finalRotation s = false) before ->
  atTop finalRotation w = true ->
  scanSegments finalRotation selectedWinner (before ++ w :: after) = Some w.
Proof.
  induction before as [| s0 before IH]; intros Hb Hw; cbn [app scanSegments].
  - rewrite Hw. reflexivity.
  - inversion Hb as [| ? ? H0 Hb']; subst. rewrite H0. apply IH; assumption.
Qed.

Lemma scanSegments_none (finalRotation : float) (selectedWinner : option (Segment float))
      (segments : list (Segment float)) :
  Forall (fun s => atTop finalRotation s = false) segments ->
  scanSegments finalRotation selectedWinner segments = selectedWinner.
Proof.
  induction segments as [| s0 segments IH]; intros Hb; cbn [scanSegments].
  - reflexivity.
  - inversion Hb as [| ? ? H0 Hb']; subst. rewrite H0. apply IH; assumption.
Qed.

(** X13: in binary64, when the pointer angle is not negative and no segment
    ends at NaN, the winner recorded by a spin is the first segment, in
    order, that ends beyond the angle; and when every segment ends at or
    before the angle, it is the first segment of the wheel. *)
Theorem winner_is_first_segment_ending_beyond_angle
        (l : list (Person float)) (rot random : float) :
  let angle := pointerAngleInWheelFrame rot random in
  let segments := getSegmentAngles l in
  PrimFloat.leb 0 angle = true ->
  forallb (fun s => negb (PrimFloat.is_nan (endAngle s))) segments = true ->
  (forall before w after,
      segments = before ++ w :: after ->
      Forall (fun s => PrimFloat.ltb angle (endAngle s) = false) before ->
      PrimFloat.ltb angle (endAngle w) = true ->
      contains w angle = true /\
      selectWinner l rot random = Some w) /\
  ((forall s, In s segments -> PrimFloat.ltb angle (endAngle s) = false) ->
   selectWinner l rot random = nth_error segments 0).
Proof.
  intros angle segments H0 Hnan.
  assert (Hsel : selectWinner l rot random =
                 scanSegments ((rot + totalRotation random) mod lit 360)
                              (nth_error segments 0) segments) by reflexivity.
  assert (Hn : Forall (fun s => PrimFloat.is_nan (endAngle s) = false) segments).
  { apply Forall_forall. intros s Hs. rewrite forallb_forall in Hnan.
    apply negb_true_iff. exact (Hnan s Hs). }
  split.
  - intros before w after E Hb Hw.
    assert (Hnb : Forall (fun s => PrimFloat.is_nan (endAngle s) = false) before).
    { apply Forall_forall. intros s Hs. rewrite Forall_forall in Hn.
      apply Hn. rewrite E. apply in_or_app. left. exact Hs. }
    destruct (@layoutFrom_first_beyond _ angle before _ _ w after E H0 Hnb Hb Hw)
      as [Hbefore Hin].
    split; [exact Hin |].
    rewrite Hsel, E. apply scanSegments_skips.
    + apply Forall_forall. intros s Hs. rewrite Forall_forall in Hbefore.
      rewrite atTop_contains. exact (Hbefore s Hs).
    + rewrite atTop_contains. exact Hin.
  - intros Hall. rewrite Hsel. apply scanSegments_none.
    apply Forall_forall. intros s Hs. rewrite atTop_contains.
    unfold contains. cbn [geb ltb float_Number].
    fold angle. rewrite (Hall s Hs). apply andb_false_r.
Qed.

End ScanInBinary64.

Lemma winner_is_first_segment_ending_beyond_angle_witness :
  let l := sevenEntrants in
  let angle := pointerAngleInWheelFrame 0%float 0.5%float in
  let segments := getSegmentAngles l in
  (PrimFloat.leb 0 angle = true /\
   forallb (fun s => negb (PrimFloat.is_nan (endAngle s))) segments = true) /\
  angle = 180%float /\
  map (@endAngle float) (firstn 3 segments) =
  [0x1.f08d3dcb08d3cp+6; 0x1.f08d3dcb08d3cp+7; 0x1.111a7b9611a7ap+8]%float /\
  option_map (@segName float) (selectWinner l 0%float 0.5%float) = Some "Bob"%string /\
  (selectWinner l 0%float 0.5%float = nth_error segments 1).
Proof.
  intros l angle segments.
  assert (H0 : PrimFloat.leb 0 angle = true) by (vm_compute; reflexivity).
  assert (Hn : forallb (fun s => negb (PrimFloat.is_nan (endAngle s))) segments = true)
    by (vm_compute; reflexivity).
  split; [split; assumption |].
  split; [vm_compute; reflexivity |].
  split; [vm_compute; reflexivity |].
  destruct (@winner_is_first_segment_ending_beyond_angle l 0%float 0.5%float H0 Hn)
    as [Hfirst _].
  assert (E : segments =
              firstn 1 segments ++ nth 1 segments noSegment :: skipn 2 segments)
    by (vm_compute; reflexivity).
  assert (Hb : Forall (fun s => PrimFloat.ltb angle (endAngle s) = false)
                      (firstn 1 segments)).
  { vm_compute. repeat constructor. }
  assert (Hw : PrimFloat.ltb angle (endAngle (nth 1 segments noSegment)) = true)
    by (vm_compute; reflexivity).
  destruct (Hfirst _ _ _ E Hb Hw) as [_ Hs].
  split; [rewrite Hs; vm_compute; reflexivity |].
  rewrite Hs. vm_compute. reflexivity.
Defined.
